(** * Falling shapes: a shallow embedding of [main.js]

    The program is a browser toy: shapes are generated at random, fall under
    a constant gravity, and disappear when they leave the screen or are
    clicked.  This development embeds the [Game] class of [main.js] and the
    [drawStar] extension, and proves the properties its specification states.

    Conventions of the embedding.
    - A JavaScript number is a real number ([R]).  The values [NaN] and
      [undefined] only arise from reading an array out of range; they are
      [None] in [option R], and arithmetic propagates them.
    - Where the order of the additions matters, in [_polygonArea], the code
      is embedded a second time on IEEE 754 binary64 numbers ([F64]), with
      every operation rounded as JavaScript rounds it.
    - A [PIXI.Graphics] object lives in a store ([gmap Ref Graphics]); the
      [shapes] array, and the click handlers, hold references into it, so
      that a mutation ([shape.y += ...], [shape.destroy()]) is seen through
      every alias.
    - [Math.random()] reads the next draw of a stream; [performance.now()]
      is an argument of the operation that reads it.
    - Of the renderer only what the game itself relies on is kept: the
      drawing commands sent to a [Graphics], its position, whether it was
      destroyed, and the [destroy()] calls made, in order. *)

From Stdlib Require Import Reals Lra Lia ZArith.
From Stdlib Require SpecFloat.
From stdpp Require Import gmap list.

Open Scope R_scope.

(** ** JavaScript numbers *)

Module JS.

(** [a || b] on numbers: [0] is the only falsy real. *)
Definition or (a b : R) : R := if Req_dec_T a 0 then b else a.

(** [a ?? b]: the left operand unless it is absent. *)
Definition nullish (a : option R) (b : R) : R := default b a.

Definition Math_floor (a : R) : Z := Int_part a.

(** [Math.round] rounds to the nearest integer, halves upwards. *)
Definition Math_round (a : R) : Z := Int_part (a + / 2).

Definition Math_max (a b : R) : R := Rmax a b.

Definition Math_abs (a : R) : R := Rabs a.

(** Arithmetic on values that may be [NaN]. *)
Definition lift2 (f : R → R → R) (a b : option R) : option R :=
  match a, b with
  | Some u, Some v => Some (f u v)
  | _, _ => None
  end.

(** [a || 0] where [a] may be [NaN] or [undefined], which are falsy. *)
Definition or_zero (a : option R) : R :=
  match a with
  | Some u => or u 0
  | None => 0
  end.

End JS.

(** ** Double-precision numbers *)

(** IEEE 754 binary64, the numbers JavaScript computes with: 53 bits of
    precision, every operation rounded to nearest, ties to even. *)
Module F64.

Abbreviation number := SpecFloat.spec_float.

Definition prec : Z := 53.
Definition emax : Z := 1024.

Definition nan : number := SpecFloat.S754_nan.


Definition add : number → number → number := SpecFloat.SFadd prec emax.



End F64.

(** ** The random source *)

Record Rng := mkRng { draws : nat → R; cursor : nat }.

(** [Math.random()] returns a number of [[0, 1)]. *)
Definition uniform (rng : Rng) : Prop := ∀ n, 0 <= draws rng n < 1.

Definition Rand (A : Type) : Type := Rng → A * Rng.

Definition ret {A} (a : A) : Rand A := λ rng, (a, rng).

Definition bind {A B} (c : Rand A) (k : A → Rand B) : Rand B :=
  λ rng, let '(a, rng') := c rng in k a rng'.

Notation "'let*' x ':=' c 'in' k" := (bind c (λ x, k))
  (at level 10, x name, c at level 100, k at level 200).

Definition Math_random : Rand R :=
  λ rng, (draws rng (cursor rng), mkRng (draws rng) (S (cursor rng))).

(** ** Graphics objects *)

Inductive DrawCmd :=
  | BeginFill (color : R)
  | MoveTo (x y : R)
  | LineTo (x y : R)
  | DrawCircle (x y radius : R)
  | DrawEllipse (x y halfWidth halfHeight : R)
  | DrawPolygon (points : list R)
  | EndFill.

Record Graphics := mkGraphics {
  cmds : list DrawCmd;        (* drawing commands, in call order *)
  x : R;
  y : R;
  _area : option R;           (* the ad hoc [_area] field *)
  pointerdown : bool;         (* a click handler is registered *)
  destroyed : bool            (* [destroy()] was called *)
}.

(** [new PIXI.Graphics()] *)
Definition new_Graphics : Graphics :=
  mkGraphics [] 0 0 None false false.

Definition draw (c : list DrawCmd) (g : Graphics) : Graphics :=
  mkGraphics (cmds g ++ c) (x g) (y g) (_area g) (pointerdown g) (destroyed g).

Definition set_area (a : option R) (g : Graphics) : Graphics :=
  mkGraphics (cmds g) (x g) (y g) a (pointerdown g) (destroyed g).

Definition set_x (v : R) (g : Graphics) : Graphics :=
  mkGraphics (cmds g) v (y g) (_area g) (pointerdown g) (destroyed g).

Definition set_y (v : R) (g : Graphics) : Graphics :=
  mkGraphics (cmds g) (x g) v (_area g) (pointerdown g) (destroyed g).

Definition on_pointerdown (g : Graphics) : Graphics :=
  mkGraphics (cmds g) (x g) (y g) (_area g) true (destroyed g).

Definition destroy (g : Graphics) : Graphics :=
  mkGraphics (cmds g) (x g) (y g) (_area g) (pointerdown g) true.

(** ** Shape parameters *)

Definition MIN_SIZE : R := 20.
Definition MAX_SIZE : R := 50.
Definition GRAVITY_STEP : R := 1.
Definition SPAWN_STEP : R := 1.

(** ** Shape generation *)

(** [PIXI.Graphics.prototype.drawStar]: the commands it sends. *)
Definition drawStar (x y : R) (points : nat) (radius : R) : list DrawCmd :=
  if decide (points < 2)%nat then []
  else
    let step := PI / INR points in
    MoveTo (x + radius) y ::
    ((λ i : nat,
        let r := if decide (i mod 2 = 0)%nat then radius else radius / 2 in
        let angle := INR i * step in
        LineTo (x + r * cos angle) (y + r * sin angle)) <$> seq 0 (2 * points)).

(** [_drawPolygon]: a regular polygon. *)
Definition _drawPolygon (radius : R) (sides : nat) : list DrawCmd :=
  let step := (PI * 2) / INR sides in
  MoveTo radius 0 ::
  ((λ i : nat, LineTo (radius * cos (INR i * step)) (radius * sin (INR i * step)))
     <$> seq 1 sides).

(** [_estimateArea] *)
Definition _estimateArea (type : Z) (size : R) : R :=
  match type with
  | 0%Z => (sqrt 3 / 4) * size ^ 2
  | 1%Z => size ^ 2
  | 2%Z => (5 / 4) * size ^ 2 * tan (PI / 5)
  | 3%Z => (3 * sqrt 3 / 2) * size ^ 2
  | 4%Z => PI * size ^ 2
  | 5%Z => PI * size * (size / 2)
  | 6%Z => (5 / 2) * size ^ 2 * sin (2 * PI / 5)
  | _ => size ^ 2
  end.

(** The [switch (type)] of [_createRandomShape]. *)
Definition draw_type (type : Z) (size : R) : list DrawCmd :=
  match type with
  | 0%Z => _drawPolygon size 3
  | 1%Z => _drawPolygon size 4
  | 2%Z => _drawPolygon size 5
  | 3%Z => _drawPolygon size 6
  | 4%Z => [DrawCircle 0 0 size]
  | 5%Z => [DrawEllipse 0 0 size (size / 2)]
  | 6%Z => drawStar 0 0 5 size
  | _ => []
  end.

(** [_createRandomShape] *)
Definition _createRandomShape : Rand Graphics :=
  let* c := Math_random in
  let g := draw [BeginFill (c * 16777215)] new_Graphics in
  let* u := Math_random in
  let size := MIN_SIZE + u * (MAX_SIZE - MIN_SIZE) in
  let* t := Math_random in
  let type := JS.Math_floor (t * 7) in
  let g := draw (draw_type type size) g in
  let g := draw [EndFill] g in
  ret (set_area (Some (_estimateArea type size)) g).

(** The index values of [for (let i = 0; i < n; i += 2)]. *)
Definition even_indices (n : nat) : list nat :=
  (λ k : nat, 2 * k)%nat <$> seq 0 ((n + 1) / 2).

(** [_polygonArea]: the shoelace formula over the flat array
    [x0, y0, x1, y1, ...]. *)
Definition _polygonArea (points : list R) : option R :=
  let n := length points in
  let area :=
    foldl (λ (area : option R) (i : nat),
             let x1 := points !! i in
             let y1 := points !! (i + 1)%nat in
             let x2 := points !! ((i + 2) mod n)%nat in
             let y2 := points !! ((i + 3) mod n)%nat in
             JS.lift2 Rplus area
               (JS.lift2 Rminus (JS.lift2 Rmult x1 y2) (JS.lift2 Rmult x2 y1)))
          (Some 0) (even_indices n) in
  (λ a, JS.Math_abs (a / 2)) <$> area.



(** The vertex loop of [_createIrregularShape]: [numPoints] vertices, one
    draw each, pushed as [x, y] onto [points]. *)
Fixpoint irregular_points (numPoints : nat) (radius : R) (k : nat) (i : nat)
    (points : list R) : Rand (list R) :=
  match k with
  | O => ret points
  | S k' =>
      let angle := (PI * 2 / INR numPoints) * INR i in
      let* u := Math_random in
      let r := radius * (0.5 + u) in
      irregular_points numPoints radius k' (S i)
        (points ++ [r * cos angle; r * sin angle])
  end.

(** [_createIrregularShape] *)
Definition _createIrregularShape : Rand Graphics :=
  let* c := Math_random in
  let g := draw [BeginFill (c * 16777215)] new_Graphics in
  let* n := Math_random in
  let numPoints := Z.to_nat (5 + JS.Math_floor (n * 5)) in
  let* u := Math_random in
  let radius := MIN_SIZE + u * (MAX_SIZE - MIN_SIZE) in
  let* points := irregular_points numPoints radius numPoints 0 [] in
  let g := draw [DrawPolygon points] g in
  let g := draw [EndFill] g in
  ret (set_area (_polygonArea points) g).

(** ** The game state *)

(** A reference to a [PIXI.Graphics] object. *)
Abbreviation Ref := nat.

(** The text of the four DOM elements the game writes; [None] until the
    game has written it. *)
Record Dom := mkDom {
  shapesCountEl : option nat;
  shapesAreaEl : option Z;
  spawnRateEl : option R;
  gravityValEl : option R
}.

Record Game := mkGame {
  width : R;
  height : R;
  gravity : R;
  shapes : list Ref;
  spawnPerSecond : R;
  _lastSpawn : R;
  store : gmap Ref Graphics;  (* the Graphics objects created so far *)
  page : Dom;
  destroy_log : list Ref      (* the objects [destroy()] was called on, one
                                 entry for each call, in call order *)
}.

#[global] Instance R_eq_decision : EqDecision R := Req_dec_T.
#[global] Instance Rgt_decision : RelDecision Rgt := Rgt_dec.
#[global] Instance Rge_decision : RelDecision Rge := Rge_dec.
#[global] Instance Rlt_decision : RelDecision Rlt := Rlt_dec.

Definition set_shapes (l : list Ref) (g : Game) : Game :=
  mkGame (width g) (height g) (gravity g) l (spawnPerSecond g) (_lastSpawn g)
         (store g) (page g) (destroy_log g).

Definition set_store (st : gmap Ref Graphics) (g : Game) : Game :=
  mkGame (width g) (height g) (gravity g) (shapes g) (spawnPerSecond g)
         (_lastSpawn g) st (page g) (destroy_log g).

Definition set_lastSpawn (t : R) (g : Game) : Game :=
  mkGame (width g) (height g) (gravity g) (shapes g) (spawnPerSecond g) t
         (store g) (page g) (destroy_log g).

Definition set_gravity (v : R) (g : Game) : Game :=
  mkGame (width g) (height g) v (shapes g) (spawnPerSecond g) (_lastSpawn g)
         (store g) (page g) (destroy_log g).

Definition set_spawnPerSecond (v : R) (g : Game) : Game :=
  mkGame (width g) (height g) (gravity g) (shapes g) v (_lastSpawn g)
         (store g) (page g) (destroy_log g).

Definition set_size (w h : R) (g : Game) : Game :=
  mkGame w h (gravity g) (shapes g) (spawnPerSecond g) (_lastSpawn g)
         (store g) (page g) (destroy_log g).

(** The renderer is told to destroy the objects of [l], in that order. *)
Definition log_destroy (l : list Ref) (g : Game) : Game :=
  mkGame (width g) (height g) (gravity g) (shapes g) (spawnPerSecond g)
         (_lastSpawn g) (store g) (page g) (destroy_log g ++ l).

Definition set_page (d : Dom) (g : Game) : Game :=
  mkGame (width g) (height g) (gravity g) (shapes g) (spawnPerSecond g)
         (_lastSpawn g) (store g) d (destroy_log g).

(** The constructor: [opts.gravity] and [opts.spawnPerSecond] may be absent;
    [innerWidth] and [innerHeight] are the window's. *)
Definition Game_new (opts_gravity opts_spawnPerSecond : option R)
    (innerWidth innerHeight : R) : Game :=
  mkGame innerWidth innerHeight
         (JS.nullish opts_gravity 1)
         []
         (JS.nullish opts_spawnPerSecond 1)
         0
         ∅
         (mkDom None None None None)
         [].

(** ** Controls *)

(** [_updateControls] *)
Definition _updateControls (g : Game) : Game :=
  set_page (mkDom (shapesCountEl (page g)) (shapesAreaEl (page g))
                 (Some (spawnPerSecond g)) (Some (gravity g))) g.

(** The four [onclick] handlers installed by [_setupControls]. *)
Definition spawn_inc (g : Game) : Game :=
  _updateControls (set_spawnPerSecond (spawnPerSecond g + SPAWN_STEP) g).

Definition spawn_dec (g : Game) : Game :=
  _updateControls
    (set_spawnPerSecond (JS.Math_max 0 (spawnPerSecond g - SPAWN_STEP)) g).

Definition grav_inc (g : Game) : Game :=
  _updateControls (set_gravity (gravity g + GRAVITY_STEP) g).

Definition grav_dec (g : Game) : Game :=
  _updateControls (set_gravity (JS.Math_max 0 (gravity g - GRAVITY_STEP)) g).

(** ** Statistics *)

(** [s._area] read through a reference. *)
Definition area_of (st : gmap Ref Graphics) (r : Ref) : option R :=
  st !! r ≫= _area.

(** The [reduce] of [_updateStats]. *)
Definition totalArea (st : gmap Ref Graphics) (l : list Ref) : R :=
  foldl (λ sum r, sum + JS.or_zero (area_of st r)) 0 l.

(** [_updateStats] *)
Definition _updateStats (g : Game) : Game :=
  set_page (mkDom (Some (length (shapes g)))
                 (Some (JS.Math_round (totalArea (store g) (shapes g))))
                 (spawnRateEl (page g)) (gravityValEl (page g))) g.

(** ** Reset and resize *)

(** [array.forEach(shape => ...)] for a callback that mutates the object it
    is given: the objects are updated in the store, in array order. *)
Definition forEach (f : Graphics → Graphics) (l : list Ref)
    (st : gmap Ref Graphics) : gmap Ref Graphics :=
  foldl (λ st r, alter f r st) st l.

(** [_resetGame] *)
Definition _resetGame (g : Game) : Game :=
  let g := log_destroy (shapes g)
             (set_store (forEach destroy (shapes g) (store g)) g) in
  let g := set_shapes [] g in
  let g := set_lastSpawn 0 g in
  _updateStats g.

(** [_resize] *)
Definition _resize (innerWidth innerHeight : R) (g : Game) : Game :=
  _resetGame (set_size innerWidth innerHeight g).

(** ** Spawning and removing *)

(** [_spawnShape] *)
Definition _spawnShape (px py : R) (allowIrregular : bool) (g : Game) : Rand Game :=
  let* irregular :=
    if allowIrregular
    then (let* u := Math_random in ret (bool_decide (u < 0.3)))
    else ret false in
  let* shape :=
    if irregular : bool then _createIrregularShape else _createRandomShape in
  let shape := set_x px shape in
  let shape := set_y py shape in
  let shape := on_pointerdown shape in
  let r := fresh (dom (store g)) in
  let g := set_store (<[r := shape]> (store g)) g in
  ret (set_shapes (shapes g ++ [r]) g).

(** [Array.prototype.indexOf] on references: the first index holding [r],
    or [-1]. *)
Fixpoint indexOf (l : list Ref) (r : Ref) : Z :=
  match l with
  | [] => -1
  | r' :: l' =>
      if decide (r' = r) then 0%Z
      else let i := indexOf l' r in if decide (i = -1)%Z then (-1)%Z else (i + 1)%Z
  end.

(** [_removeShape] *)
Definition _removeShape (r : Ref) (g : Game) : Game :=
  let idx := indexOf (shapes g) r in
  let g := if decide (idx ≠ -1)%Z
           then set_shapes (delete (Z.to_nat idx) (shapes g)) g
           else g in
  log_destroy [r] (set_store (alter destroy r (store g)) g).

(** ** The update loop *)

(** The spawn part of [_update]. *)
Definition spawn_interval (g : Game) : R := 1000 / JS.or (spawnPerSecond g) 1.

Definition spawn_due (now : R) (g : Game) : Prop :=
  now - _lastSpawn g >= spawn_interval g.

#[global] Instance spawn_due_dec now g : Decision (spawn_due now g) :=
  Rge_dec _ _.

Definition spawn_phase (now : R) (g : Game) : Rand Game :=
  if decide (spawn_due now g) then
    let g := set_lastSpawn now g in
    if decide (spawnPerSecond g > 0) then
      let* u := Math_random in
      _spawnShape (u * width g) (-50) false g
    else ret g
  else ret g.

(** [this.shapes.forEach(shape => shape.y += this.gravity * delta)] *)
Definition fall (d : R) (s : Graphics) : Graphics := set_y (y s + d) s.

Definition gravity_phase (delta : R) (g : Game) : Game :=
  set_store (forEach (fall (gravity g * delta)) (shapes g) (store g)) g.

(** The callback of the [filter]: [shape.y > this.height + 100]. *)
Definition offscreen (limit : R) (st : gmap Ref Graphics) (r : Ref) : bool :=
  match st !! r with
  | Some s => bool_decide (y s > limit)
  | None => false
  end.

(** The [filter] of [_update]; its callback destroys what it rejects. *)
Fixpoint cull (limit : R) (l : list Ref) (st : gmap Ref Graphics)
    : list Ref * gmap Ref Graphics :=
  match l with
  | [] => ([], st)
  | r :: l' =>
      if offscreen limit st r
      then cull limit l' (alter destroy r st)
      else let '(kept, st') := cull limit l' st in (r :: kept, st')
  end.

(** The [destroy()] calls that callback makes, in order. *)
Fixpoint cull_destroyed (limit : R) (l : list Ref) (st : gmap Ref Graphics)
    : list Ref :=
  match l with
  | [] => []
  | r :: l' =>
      if offscreen limit st r
      then r :: cull_destroyed limit l' (alter destroy r st)
      else cull_destroyed limit l' st
  end.

Definition cull_phase (g : Game) : Game :=
  let '(kept, st) := cull (height g + 100) (shapes g) (store g) in
  let called := cull_destroyed (height g + 100) (shapes g) (store g) in
  set_shapes kept (log_destroy called (set_store st g)).

(** [_update] *)
Definition _update (now delta : R) (g : Game) : Rand Game :=
  let* g := spawn_phase now g in
  let g := gravity_phase delta g in
  let g := cull_phase g in
  ret (_updateStats g).

(** ** Events *)

(** The [pointerdown] handler of the stage. *)
Definition stage_pointerdown (target_is_stage : bool) (px py : R) (g : Game)
    : Rand Game :=
  if target_is_stage then _spawnShape px py true g else ret g.

(** The [pointerdown] handler registered on a shape by [_spawnShape]. *)
Definition shape_pointerdown (r : Ref) (g : Game) : Game :=
  match store g !! r with
  | Some s => if pointerdown s then _removeShape r g else g
  | None => g
  end.

Inductive Event :=
  | Tick (now delta : R)
  | StageClick (px py : R)
  | ShapeClick (r : Ref)
  | Resize (innerWidth innerHeight : R)
  | SpawnInc
  | SpawnDec
  | GravInc
  | GravDec.

Definition step (e : Event) (g : Game) : Rand Game :=
  match e with
  | Tick now delta => _update now delta g
  | StageClick px py => stage_pointerdown true px py g
  | ShapeClick r => ret (shape_pointerdown r g)
  | Resize w h => ret (_resize w h g)
  | SpawnInc => ret (spawn_inc g)
  | SpawnDec => ret (spawn_dec g)
  | GravInc => ret (grav_inc g)
  | GravDec => ret (grav_dec g)
  end.

(** A sequence of events, handled one after the other. *)
Fixpoint run (es : list Event) (g : Game) : Rand Game :=
  match es with
  | [] => ret g
  | e :: es' => let* g' := step e g in run es' g'
  end.

(** What holds of the [shapes] array in every state the game reaches: no
    object is in it twice, and every reference in it is to an object of the
    store. *)
Definition Inv (g : Game) : Prop :=
  NoDup (shapes g) ∧ ∀ r, r ∈ shapes g → is_Some (store g !! r).

(** ** The specification's closed forms *)

(** The seven kinds [_createRandomShape] chooses from, in the order of its
    [switch]. *)
Inductive Kind :=
  | Triangle | Square | Pentagon | Hexagon | Circle | Ellipse | Star.

Definition kind_of_type (type : Z) : option Kind :=
  match type with
  | 0%Z => Some Triangle
  | 1%Z => Some Square
  | 2%Z => Some Pentagon
  | 3%Z => Some Hexagon
  | 4%Z => Some Circle
  | 5%Z => Some Ellipse
  | 6%Z => Some Star
  | _ => None
  end.

(** The area the specification gives for each kind. *)
Definition spec_area (k : Kind) (size : R) : R :=
  match k with
  | Triangle => (sqrt 3 / 4) * (size * size)
  | Square => size * size
  | Pentagon => (5 / 4) * (size * size) * tan (PI / 5)
  | Hexagon => (3 * sqrt 3 / 2) * (size * size)
  | Circle => PI * (size * size)
  | Ellipse => PI * size * (size / 2)
  | Star => (5 / 2) * (size * size) * sin (2 * PI / 5)
  end.

(** The geometry the specification gives for each kind: a vertex ring of
    3 to 6 sides, a circle of radius [size], an ellipse of semi-axes [size]
    and [size / 2], a star of 5 outer points. *)
Definition spec_geometry (k : Kind) (size : R) : list DrawCmd :=
  match k with
  | Triangle => _drawPolygon size 3
  | Square => _drawPolygon size 4
  | Pentagon => _drawPolygon size 5
  | Hexagon => _drawPolygon size 6
  | Circle => [DrawCircle 0 0 size]
  | Ellipse => [DrawEllipse 0 0 size (size / 2)]
  | Star => drawStar 0 0 5 size
  end.

(** A random source that repeats three draws. *)
Definition rng_of (a b c : R) : Rng :=
  mkRng (λ n, match n with O => a | 1%nat => b | _ => c end) 0.


(** The shoelace sum as the specification words it: the cross terms
    [x1 * y2 - x2 * y1] of the consecutive vertex pairs, and of the pair that
    wraps around from the last vertex to the first. *)
Definition cross (p q : R * R) : R := p.1 * q.2 - q.1 * p.2.



Definition Rsum (l : list R) : R := foldr Rplus 0 l.

#[global] Arguments Rsum : simpl never.


(** The flat array [x0, y0, x1, y1, ...] of a vertex list. *)
Definition flatten {A} (vs : list (A * A)) : list A := vs ≫= λ p, [p.1; p.2].







(** The targets of the [lineTo] commands of a path. *)
Definition lineTo_of (c : DrawCmd) : option (R * R) :=
  match c with
  | LineTo px py => Some (px, py)
  | _ => None
  end.

Definition lineTo_points (cs : list DrawCmd) : list (R * R) := omap lineTo_of cs.


(** A shape as the factory returns it: at the origin, without handler, not
    destroyed. *)
Definition just_made (s : Graphics) : Prop :=
  x s = 0 ∧ y s = 0 ∧ pointerdown s = false ∧ destroyed s = false.

(** ** Sample states *)

(** A circle of size 20 at [(px, py)], as [_spawnShape] leaves it. *)
Definition shape_at (px py : R) : Graphics :=
  mkGraphics [BeginFill 0; DrawCircle 0 0 20; EndFill] px py (Some (PI * 400))
             true false.

(** A window of 800 by 600, gravity 1, one spawn per second, and one shape,
    of reference 0, at [(10, py)]. *)
Definition game_one (py : R) : Game :=
  mkGame 800 600 1 [0%nat] 1 0 {[0%nat := shape_at 10 py]}
         (mkDom None None None None) [].

(** [new Game({ spawnPerSecond: 0.5 })] *)
Definition game_half : Game := Game_new None (Some (1 / 2)) 800 600.

(** [new Game({ gravity: 1, spawnPerSecond: 1 })], the one construction the
    program makes, in a window of [innerWidth] by [innerHeight]. *)
Definition game_main (innerWidth innerHeight : R) : Game :=
  Game_new (Some 1) (Some 1) innerWidth innerHeight.

(** The events of the four control buttons. *)
Definition is_control (e : Event) : bool :=
  match e with
  | SpawnInc | SpawnDec | GravInc | GravDec => true
  | _ => false
  end.

(** The specification's [setGravity(v)] and [setSpawnRate(v)], in its words:
    clamp to [>= 0], update the setting, refresh the control display.  The
    code has no such functions; they are what its control handlers are
    compared with. *)
Definition spec_setGravity (v : R) (g : Game) : Game :=
  _updateControls (set_gravity (Rmax 0 v) g).

Definition spec_setSpawnRate (v : R) (g : Game) : Game :=
  _updateControls (set_spawnPerSecond (Rmax 0 v) g).

(** A random source whose draws are all 0. *)
Definition rng0 : Rng := rng_of 0 0 0.

(** ** Resources *)

(** The object [r] exists and has not been destroyed. *)
Definition live (st : gmap Ref Graphics) (r : Ref) : Prop :=
  destroyed <$> st !! r = Some false.

(** The [shapes] array accounts for the objects of the store: it holds each
    live object once and nothing else, and every object carries its click
    handler. *)
Definition Accounted (g : Game) : Prop :=
  NoDup (shapes g) ∧
  (∀ r, r ∈ shapes g ↔ live (store g) r) ∧
  (∀ r s, store g !! r = Some s → pointerdown s = true).

(** The [y] of a shape that starts at [y0], after frames of the given deltas
    under gravity [gr]: added frame by frame, as [_update] adds them. *)
Definition fallen (gr y0 : R) (deltas : list R) : R :=
  foldl (λ a d, a + gr * d) y0 deltas.

(** A tick for each pair of a time and a frame delta. *)
Definition ticks (frames : list (R * R)) : list Event :=
  (λ f, Tick f.1 f.2) <$> frames.

(** ** Statistics of a state *)

(** The object records an area, a non-negative number. *)
Definition has_area (s : Graphics) : Prop := ∃ a, _area s = Some a ∧ 0 <= a.

(** [_spawnShape] places a new shape and registers its handler. *)
Definition placed (px py : R) (s : Graphics) : Graphics :=
  on_pointerdown (set_y py (set_x px s)).

(** The display shows the count and the rounded total area of [shapes]. *)
Definition stats_in_sync (g : Game) : Prop :=
  shapesCountEl (page g) = Some (length (shapes g)) ∧
  shapesAreaEl (page g) = Some (JS.Math_round (totalArea (store g) (shapes g))).

(** ** Geometry of the drawn shapes *)


(** * Properties *)

(** ** Shape areas *)

Section ShapeFactory.

Lemma floor_range (u : R) (n : Z) :
  0 <= u < 1 → (0 < n)%Z → (0 ≤ JS.Math_floor (u * IZR n) < n)%Z.
Proof.
  intros [Hu0 Hu1] Hn. unfold JS.Math_floor.
  destruct (base_Int_part (u * IZR n)) as [Hle Hgt].
  apply IZR_lt in Hn.
  assert (0 <= u * IZR n < IZR n) as [H0 H1] by nra.
  split.
  - apply Z.lt_succ_r, lt_IZR. rewrite succ_IZR. lra.
  - apply lt_IZR. lra.
Qed.

Lemma floor_eq (a : R) (z : Z) : IZR z <= a < IZR z + 1 → JS.Math_floor a = z.
Proof.
  intros [H1 H2]. unfold JS.Math_floor. symmetry. apply Int_part_spec. lra.
Qed.

Lemma estimateArea_spec (type : Z) (size : R) (k : Kind) :
  kind_of_type type = Some k →
  draw_type type size = spec_geometry k size ∧
  _estimateArea type size = spec_area k size.
Proof.
  intros Hk. unfold kind_of_type in Hk.
  repeat match type of Hk with
         | context [match ?z with _ => _ end] => destruct z; try discriminate
         end;
    injection Hk as <-; (split; [reflexivity | simpl; ring]).
Qed.

Lemma type_has_kind (type : Z) :
  (0 ≤ type ≤ 6)%Z → ∃ k, kind_of_type type = Some k.
Proof.
  intros H.
  assert (type = 0 ∨ type = 1 ∨ type = 2 ∨ type = 3 ∨ type = 4 ∨ type = 5
          ∨ type = 6)%Z as Hc by lia.
  repeat destruct Hc as [-> | Hc]; try subst type; simpl; eauto.
Qed.

Lemma size_range (u : R) :
  0 <= u < 1 → MIN_SIZE <= MIN_SIZE + u * (MAX_SIZE - MIN_SIZE) < MAX_SIZE.
Proof. unfold MIN_SIZE, MAX_SIZE. intros. lra. Qed.

End ShapeFactory.

(** C1. Whatever the random source draws, [_createRandomShape] makes a shape
    of one of the seven kinds, of a size in [[MIN_SIZE, MAX_SIZE)], whose
    [_area] is the specification's closed form for that kind and size; for
    every kind and size [_estimateArea] is that closed form; a square of size
    30 has area 900 and a circle of size 20 has area [PI * 400], and both are
    shapes the factory can make. *)
Theorem createRandomShape_area_closed_form :
  (∀ rng, uniform rng →
     ∃ k size c,
       MIN_SIZE <= size < MAX_SIZE ∧
       (_createRandomShape rng).1 =
         mkGraphics ([BeginFill c] ++ spec_geometry k size ++ [EndFill])
                    0 0 (Some (spec_area k size)) false false) ∧
  (∀ type size k,
     kind_of_type type = Some k → _estimateArea type size = spec_area k size) ∧
  _area (_createRandomShape (rng_of 0 (1 / 3) 0.2)).1 = Some 900 ∧
  cmds (_createRandomShape (rng_of 0 (1 / 3) 0.2)).1 =
    [BeginFill 0] ++ spec_geometry Square 30 ++ [EndFill] ∧
  _area (_createRandomShape (rng_of 0 0 0.6)).1 = Some (PI * 400) ∧
  cmds (_createRandomShape (rng_of 0 0 0.6)).1 =
    [BeginFill 0] ++ spec_geometry Circle 20 ++ [EndFill].
Proof.
  split; [|split].
  - intros rng Hu.
    unfold _createRandomShape, bind, Math_random, ret; simpl.
    set (u := draws rng (S (cursor rng))).
    set (t := draws rng (S (S (cursor rng)))).
    destruct (type_has_kind (JS.Math_floor (t * 7))) as [k Hk].
    { pose proof (floor_range t 7 (Hu _)). lia. }
    destruct (estimateArea_spec _ (MIN_SIZE + u * (MAX_SIZE - MIN_SIZE)) _ Hk)
      as [Hd Ha].
    exists k, (MIN_SIZE + u * (MAX_SIZE - MIN_SIZE)), (draws rng (cursor rng) * 16777215).
    split; [apply size_range, Hu|].
    unfold set_area, draw; simpl. by rewrite Hd, Ha.
  - intros type size k Hk. by apply estimateArea_spec.
  - unfold _createRandomShape, bind, Math_random, ret, rng_of; simpl.
    assert (JS.Math_floor (0.2 * 7) = 1%Z) as -> by (apply floor_eq; lra).
    assert (JS.Math_floor (0.6 * 7) = 4%Z) as -> by (apply floor_eq; lra).
    unfold MIN_SIZE, MAX_SIZE; simpl.
    replace (20 + 1 / 3 * (50 - 20)) with 30 by lra.
    replace (20 + 0 * (50 - 20)) with 20 by lra.
    replace (0 * 16777215) with 0 by lra.
    repeat split; f_equal; lra.
Qed.

(** The square of size 30 of the scenario. *)
Lemma createRandomShape_area_closed_form_witness :
  ∃ k size c,
    MIN_SIZE <= size < MAX_SIZE ∧
    (_createRandomShape (rng_of 0 (1 / 3) 0.2)).1 =
      mkGraphics ([BeginFill c] ++ spec_geometry k size ++ [EndFill])
                 0 0 (Some (spec_area k size)) false false.
Proof.
  apply (proj1 createRandomShape_area_closed_form).
  intros n. destruct n as [|[|n]]; cbn; lra.
Defined.

(** ** The shoelace area *)

Section Shoelace.


Lemma Rsum_nil : Rsum [] = 0.
Proof. reflexivity. Qed.

Lemma Rsum_cons (a : R) (l : list R) : Rsum (a :: l) = a + Rsum l.
Proof. reflexivity. Qed.


Lemma foldl_lift2_Some (f : nat → option R) (t : nat → R) (l : list nat) (a0 : R) :
  (∀ i, i ∈ l → f i = Some (t i)) →
  foldl (λ a i, JS.lift2 Rplus a (f i)) (Some a0) l = Some (a0 + Rsum (t <$> l)).
Proof.
  revert a0. induction l as [|i l IH]; intros a0 Hf; cbn [foldl].
  - apply (f_equal Some). rewrite fmap_nil, Rsum_nil. ring.
  - rewrite (Hf i) by left. cbn [JS.lift2]. rewrite IH.
    + apply (f_equal Some). rewrite fmap_cons, Rsum_cons. ring.
    + intros j Hj. apply Hf. by right.
Qed.

Lemma lookup_nth {A} (l : list A) (i : nat) (d : A) :
  (i < length l)%nat → l !! i = Some (nth i l d).
Proof.
  intros Hi. destruct (nth_lookup_or_length l i d) as [Hl|Hl]; [done|lia].
Qed.

Lemma flatten_cons {A} (p : A * A) (vs : list (A * A)) :
  flatten (p :: vs) = p.1 :: p.2 :: flatten vs.
Proof. reflexivity. Qed.

Lemma length_flatten {A} (vs : list (A * A)) :
  length (flatten vs) = (2 * length vs)%nat.
Proof.
  induction vs as [|p vs IH]; [done|].
  rewrite flatten_cons. cbn [length]. rewrite IH. lia.
Qed.

Lemma lookup_flatten {A} (vs : list (A * A)) (k : nat) (p : A * A) :
  vs !! k = Some p →
  flatten vs !! (2 * k)%nat = Some p.1 ∧ flatten vs !! (2 * k + 1)%nat = Some p.2.
Proof.
  revert k. induction vs as [|v vs IH]; intros k Hk; [done|].
  destruct k as [|k]; simpl in Hk.
  - by injection Hk as ->.
  - replace (2 * S k)%nat with (S (S (2 * k))) by lia.
    rewrite flatten_cons. by apply IH.
Qed.

Lemma wrap_even (k n : nat) :
  (k < n)%nat → ((2 * k + 2) mod (2 * n) = 2 * (S k mod n))%nat.
Proof.
  intros Hk. replace (2 * k + 2)%nat with (2 * S k)%nat by lia.
  apply Nat.Div0.mul_mod_distr_l.
Qed.

Lemma wrap_odd (k n : nat) :
  (k < n)%nat → ((2 * k + 3) mod (2 * n) = 2 * (S k mod n) + 1)%nat.
Proof.
  intros Hk. destruct (decide (S k < n)%nat) as [Hlt|Hge].
  - rewrite !Nat.mod_small by lia. lia.
  - assert (S k = n) as <- by lia.
    rewrite Nat.Div0.mod_same.
    replace (2 * k + 3)%nat with (1 + 1 * (2 * S k))%nat by lia.
    rewrite Nat.Div0.mod_add, Nat.mod_small by lia. lia.
Qed.

Lemma even_indices_double (n : nat) :
  even_indices (2 * n) = (λ k, 2 * k)%nat <$> seq 0 n.
Proof.
  unfold even_indices. do 2 f_equal.
  replace (2 * n + 1)%nat with (1 + n * 2)%nat by lia.
  rewrite Nat.div_add by lia. reflexivity.
Qed.

(** The sum the loop of [_polygonArea] accumulates over a vertex list. *)
Lemma polygonArea_flatten (vs : list (R * R)) d :
  _polygonArea (flatten vs) =
  Some (Rabs (Rsum ((λ k, cross (nth k vs d) (nth (S k mod length vs) vs d))
                      <$> seq 0 (length vs)) / 2)).
Proof.
  unfold _polygonArea. rewrite length_flatten, even_indices_double.
  rewrite (foldl_lift2_Some _
    (λ i, cross (nth (i / 2) vs d) (nth (S (i / 2) mod length vs) vs d))).
  - rewrite <- list_fmap_compose.
    rewrite (list_fmap_ext _
      (λ k, cross (nth k vs d) (nth (S k mod length vs) vs d))
      (seq 0 (length vs))).
    + cbn [fmap option_fmap option_map]. unfold JS.Math_abs.
      by rewrite Rplus_0_l.
    + intros _ k _. unfold compose. by rewrite Nat.mul_comm, Nat.div_mul.
  - intros i [k [-> Hk]]%list_elem_of_fmap.
    apply elem_of_seq in Hk as [_ Hk]. simpl in Hk.
    replace (2 * k / 2)%nat with k by (rewrite Nat.mul_comm, Nat.div_mul; lia).
    assert (S k mod length vs < length vs)%nat as Hw
        by (apply Nat.mod_upper_bound; lia).
    destruct (lookup_flatten vs k (nth k vs d)) as [Hx1 Hy1].
    { by apply lookup_nth. }
    destruct (lookup_flatten vs (S k mod length vs)
                (nth (S k mod length vs) vs d)) as [Hx2 Hy2].
    { by apply lookup_nth. }
    rewrite wrap_even, wrap_odd by done.
    rewrite Hx1, Hy1, Hx2, Hy2. reflexivity.
Qed.







Lemma flatten_app {A} (vs ws : list (A * A)) :
  flatten (vs ++ ws) = flatten vs ++ flatten ws.
Proof. unfold flatten. apply bind_app. Qed.

(** The vertex loop of [_createIrregularShape] pushes whole vertices. *)
Lemma irregular_points_flatten (k numPoints : nat) (radius : R) (i : nat)
    (pts : list R) (rng : Rng) :
  ∃ vs : list (R * R),
    length vs = k ∧
    (irregular_points numPoints radius k i pts rng).1 = pts ++ flatten vs.
Proof.
  revert i pts rng. induction k as [|k IH]; intros i pts rng.
  - exists []. split; [done|]. cbn. by rewrite app_nil_r.
  - cbn [irregular_points]. unfold bind at 1, Math_random at 1.
    match goal with
    | |- context [irregular_points _ _ k (S i) (pts ++ [?a; ?b]) ?g] =>
        destruct (IH (S i) (pts ++ [a; b]) g) as (vs & Hlen & Hvs);
        exists ((a, b) :: vs)
    end.
    split; [simpl; lia|]. rewrite Hvs, flatten_cons, <- app_assoc. done.
Qed.

End Shoelace.

(** ** The shoelace area on doubles *)

Section Doubles.
Implicit Types (a b : F64.number) (points : list F64.number)
  (vs : list (F64.number * F64.number)).




Lemma add_nan_l a : F64.add F64.nan a = F64.nan.
Proof. done. Qed.










End Doubles.




(** ** Paths *)

Section Paths.

Lemma omap_fmap_Some {A B C} (f : B → option C) (h : A → B) (t : A → C)
    (l : list A) :
  (∀ a, f (h a) = Some (t a)) → omap f (h <$> l) = t <$> l.
Proof.
  intros Hf. induction l as [|a l IH]; [done|].
  rewrite !fmap_cons. cbn [omap list_omap]. by rewrite Hf, IH.
Qed.

End Paths.

(** ** The store *)

Section Store.
Implicit Types (st : gmap nat Graphics) (l : list nat).

Lemma destroy_idemp (s : Graphics) : destroy (destroy s) = destroy s.
Proof. reflexivity. Qed.

Lemma forEach_cons (f : Graphics → Graphics) (r : nat) l st :
  forEach f (r :: l) st = forEach f l (alter f r st).
Proof. reflexivity. Qed.

Lemma forEach_lookup_notin (f : Graphics → Graphics) l st (r : nat) :
  r ∉ l → forEach f l st !! r = st !! r.
Proof.
  revert st. induction l as [|r' l IH]; intros st Hr; [done|].
  apply not_elem_of_cons in Hr as [Hne Hr].
  by rewrite forEach_cons, IH, lookup_alter_ne.
Qed.

Lemma forEach_lookup_NoDup (f : Graphics → Graphics) l st (r : nat) :
  NoDup l → r ∈ l → forEach f l st !! r = f <$> st !! r.
Proof.
  revert st. induction l as [|r' l IH]; intros st Hnd Hr.
  { by apply elem_of_nil in Hr. }
  apply NoDup_cons in Hnd as [Hr' Hnd]. rewrite forEach_cons.
  destruct (decide (r = r')) as [->|Hne].
  - by rewrite forEach_lookup_notin, lookup_alter_eq.
  - apply elem_of_cons in Hr as [?|Hr]; [done|].
    by rewrite IH, lookup_alter_ne.
Qed.

Lemma forEach_lookup_idemp (f : Graphics → Graphics) l st (r : nat) :
  (∀ s, f (f s) = f s) → r ∈ l → forEach f l st !! r = f <$> st !! r.
Proof.
  intros Hf. revert st. induction l as [|r' l IH]; intros st Hr.
  { by apply elem_of_nil in Hr. }
  rewrite forEach_cons. destruct (decide (r ∈ l)) as [Hin|Hnin].
  - rewrite IH by done. destruct (decide (r = r')) as [->|Hne].
    + rewrite lookup_alter_eq. destruct (st !! r'); simpl; by rewrite ?Hf.
    + by rewrite lookup_alter_ne.
  - apply elem_of_cons in Hr as [->|?]; [|done].
    by rewrite forEach_lookup_notin, lookup_alter_eq.
Qed.

Lemma forEach_lookup_preserved {A} (h : Graphics → A) (f : Graphics → Graphics)
    l st (r : nat) :
  (∀ s, h (f s) = h s) → h <$> forEach f l st !! r = h <$> st !! r.
Proof.
  intros Hf. revert st. induction l as [|r' l IH]; intros st; [done|].
  rewrite forEach_cons, IH. destruct (decide (r = r')) as [->|Hne].
  - rewrite lookup_alter_eq. destruct (st !! r'); simpl; by rewrite ?Hf.
  - by rewrite lookup_alter_ne.
Qed.

Lemma forEach_is_Some (f : Graphics → Graphics) l st (r : nat) :
  is_Some (forEach f l st !! r) ↔ is_Some (st !! r).
Proof.
  rewrite <- (fmap_is_Some (λ _, ()) (forEach f l st !! r)).
  rewrite <- (fmap_is_Some (λ _, ()) (st !! r)).
  by rewrite (forEach_lookup_preserved (λ _, ())).
Qed.

Lemma offscreen_alter_destroy (limit : R) st (r r' : nat) :
  offscreen limit (alter destroy r' st) r = offscreen limit st r.
Proof.
  unfold offscreen. destruct (decide (r = r')) as [->|Hne].
  - rewrite lookup_alter_eq. by destruct (st !! r').
  - by rewrite lookup_alter_ne.
Qed.

(** The [filter] keeps, in order, the shapes that are not off screen. *)
Lemma cull_kept (limit : R) l st :
  (cull limit l st).1 = filter (λ r, ¬ offscreen limit st r) l.
Proof.
  revert st. induction l as [|r l IH]; intros st; [done|].
  cbn [cull]. rewrite filter_cons. destruct (offscreen limit st r) eqn:Hoff.
  - case_decide as Hd; [by destruct Hd|].
    rewrite IH. apply list_filter_iff. intros r'.
    by rewrite offscreen_alter_destroy.
  - case_decide as Hd; [|by destruct Hd].
    specialize (IH st). destruct (cull limit l st) as [kept st'].
    simpl in *. by rewrite IH.
Qed.

(** ... and destroys exactly the others. *)
Lemma cull_store (limit : R) l st (r : nat) :
  (cull limit l st).2 !! r
  = if decide (r ∈ l ∧ offscreen limit st r) then destroy <$> st !! r
    else st !! r.
Proof.
  revert st. induction l as [|r' l IH]; intros st.
  { cbn. rewrite decide_False; [done|]. intros [[]%elem_of_nil _]. }
  cbn [cull]. destruct (offscreen limit st r') eqn:Hoff.
  - rewrite IH, offscreen_alter_destroy.
    destruct (decide (r = r')) as [->|Hne].
    + rewrite lookup_alter_eq, Hoff.
      rewrite (decide_True (P := r' ∈ r' :: l ∧ true)) by (split; [left|done]).
      case_decide; [|done]. destruct (st !! r'); simpl; by rewrite ?destroy_idemp.
    + rewrite lookup_alter_ne by done.
      apply decide_ext. rewrite elem_of_cons. intuition.
  - specialize (IH st). destruct (cull limit l st) as [kept st'].
    simpl in *. rewrite IH. apply decide_ext. rewrite elem_of_cons.
    split; [intuition|]. intros [[->|?] Hr]; [|done].
    rewrite Hoff in Hr. done.
Qed.

(** The callback calls [destroy()] on the shapes it rejects, in order. *)
Lemma cull_destroyed_filter (limit : R) l st :
  cull_destroyed limit l st = filter (λ r, offscreen limit st r) l.
Proof.
  revert st. induction l as [|r l IH]; intros st; [done|].
  cbn [cull_destroyed]. rewrite filter_cons.
  destruct (offscreen limit st r) eqn:Hoff.
  - rewrite decide_True by done. f_equal. rewrite IH.
    apply list_filter_iff. intros r'. by rewrite offscreen_alter_destroy.
  - rewrite decide_False by (by intros ?). apply IH.
Qed.

End Store.

(** ** Spawning *)

Section Spawning.

Lemma createRandomShape_just_made (rng : Rng) :
  just_made (_createRandomShape rng).1.
Proof. by unfold _createRandomShape, bind, Math_random, ret. Qed.

Lemma createIrregularShape_just_made (rng : Rng) :
  just_made (_createIrregularShape rng).1.
Proof.
  unfold _createIrregularShape, bind, Math_random, ret.
  by destruct (irregular_points _ _ _ _ _ _).
Qed.

Lemma fresh_not_in_store (st : gmap nat Graphics) : st !! fresh (dom st) = None.
Proof. apply not_elem_of_dom, is_fresh. Qed.

(** [_spawnShape] allocates one object, places it and pushes it. *)
Lemma spawnShape_spec (px py : R) (irr : bool) (g : Game) (rng : Rng) :
  ∃ s, (_spawnShape px py irr g rng).1
       = set_shapes (shapes g ++ [fresh (dom (store g))])
           (set_store (<[fresh (dom (store g)) := s]> (store g)) g) ∧
       x s = px ∧ y s = py ∧ pointerdown s = true ∧ destroyed s = false.
Proof.
  unfold _spawnShape, bind.
  destruct (_ rng) as [irregular rng1].
  destruct irregular.
  - pose proof (createIrregularShape_just_made rng1) as (_ & _ & _ & Hd).
    destruct (_createIrregularShape rng1) as [s rng2]. simpl in *.
    eexists. split; [reflexivity|]. by simpl.
  - pose proof (createRandomShape_just_made rng1) as (_ & _ & _ & Hd).
    destruct (_createRandomShape rng1) as [s rng2]. simpl in *.
    eexists. split; [reflexivity|]. by simpl.
Qed.

End Spawning.

(** ** Removing *)

Section Removing.
Implicit Types (l : list nat) (r : nat) (g : Game).

Lemma indexOf_notin l r : r ∉ l → indexOf l r = (-1)%Z.
Proof.
  induction l as [|r' l IH]; [done|]. intros [Hne Hr]%not_elem_of_cons.
  cbn [indexOf]. rewrite decide_False by done. rewrite IH by done.
  by rewrite decide_True.
Qed.

Lemma indexOf_in l r :
  r ∈ l →
  ∃ l1 l2,
    l = l1 ++ r :: l2 ∧ (r ∉ l1) ∧ indexOf l r = Z.of_nat (length l1).
Proof.
  induction l as [|r' l IH]; intros Hr; [by apply elem_of_nil in Hr|].
  cbn [indexOf]. destruct (decide (r' = r)) as [->|Hne].
  - exists [], l. split; [done|]. split; [apply not_elem_of_nil | done].
  - apply elem_of_cons in Hr as [?|Hr]; [done|].
    destruct (IH Hr) as (l1 & l2 & -> & Hl1 & Hidx).
    exists (r' :: l1), l2. split; [done|].
    split; [apply not_elem_of_cons; by split|].
    rewrite Hidx, decide_False by lia. cbn [length]. lia.
Qed.

Lemma indexOf_minus_one l r : indexOf l r = (-1)%Z ↔ r ∉ l.
Proof.
  split; [|apply indexOf_notin].
  intros Hidx Hr. destruct (indexOf_in l r Hr) as (? & ? & _ & _ & Heq). lia.
Qed.

Lemma removeShape_notin r g :
  r ∉ shapes g →
  _removeShape r g = log_destroy [r] (set_store (alter destroy r (store g)) g).
Proof.
  intros Hr. unfold _removeShape. rewrite indexOf_notin by done.
  by rewrite decide_False by (intros H; by apply H).
Qed.

Lemma removeShape_in r g (l1 l2 : list nat) :
  shapes g = l1 ++ r :: l2 → r ∉ l1 →
  _removeShape r g
  = log_destroy [r]
      (set_store (alter destroy r (store g)) (set_shapes (l1 ++ l2) g)).
Proof.
  intros Hg Hl1. unfold _removeShape.
  destruct (indexOf_in (shapes g) r) as (k1 & k2 & Hk & Hk1 & Hidx).
  { rewrite Hg. set_solver. }
  assert (k1 = l1) as ->.
  { rewrite Hg in Hk. clear -Hk Hk1 Hl1. revert k1 Hk Hk1.
    induction l1 as [|a l1 IH]; intros [|b k1] Hk Hk1; simplify_eq/=.
    - done.
    - set_solver.
    - set_solver.
    - f_equal. apply IH; [set_solver|done|set_solver]. }
  rewrite Hidx, decide_True by lia.
  by rewrite Nat2Z.id, Hg, delete_middle.
Qed.

Lemma set_store_same g : set_store (store g) g = g.
Proof. by destruct g. Qed.

Lemma alter_destroy_destroyed (st : gmap nat Graphics) r (s : Graphics) :
  st !! r = Some s → destroyed s = true → alter destroy r st = st.
Proof.
  intros Hs Hd. apply map_eq. intros r'.
  destruct (decide (r' = r)) as [->|Hne].
  - rewrite lookup_alter_eq, Hs. simpl. f_equal.
    destruct s; simpl in *; by subst.
  - by rewrite lookup_alter_ne.
Qed.

Lemma alter_destroy_twice (st : gmap nat Graphics) r :
  alter destroy r (alter destroy r st) = alter destroy r st.
Proof.
  apply map_eq. intros r'. destruct (decide (r' = r)) as [->|Hne].
  - rewrite !lookup_alter_eq. by destruct (st !! r).
  - by rewrite !lookup_alter_ne.
Qed.

End Removing.

(** ** The update loop *)

Section UpdateLoop.
Implicit Types (g : Game) (rng : Rng) (r : nat).

Lemma update_eq (now delta : R) g rng :
  (_update now delta g rng).1
  = _updateStats (cull_phase (gravity_phase delta (spawn_phase now g rng).1)).
Proof. unfold _update, bind, ret. by destruct (spawn_phase now g rng). Qed.

Lemma shapes_cull_phase g :
  shapes (cull_phase g) = (cull (height g + 100) (shapes g) (store g)).1.
Proof. unfold cull_phase. by destruct (cull _ _ _). Qed.

Lemma store_cull_phase g :
  store (cull_phase g) = (cull (height g + 100) (shapes g) (store g)).2.
Proof. unfold cull_phase. by destruct (cull _ _ _). Qed.

Lemma log_cull_phase g :
  destroy_log (cull_phase g)
  = destroy_log g
    ++ filter (λ r, offscreen (height g + 100) (store g) r) (shapes g).
Proof.
  unfold cull_phase. rewrite cull_destroyed_filter. by destruct (cull _ _ _).
Qed.

(** What the phases of [_update] leave alone. *)
Lemma cull_phase_settings g :
  width (cull_phase g) = width g ∧ height (cull_phase g) = height g ∧
  gravity (cull_phase g) = gravity g ∧
  spawnPerSecond (cull_phase g) = spawnPerSecond g ∧
  _lastSpawn (cull_phase g) = _lastSpawn g ∧ page (cull_phase g) = page g.
Proof. unfold cull_phase. by destruct (cull _ _ _). Qed.

Lemma spawn_phase_not_due (now : R) g rng :
  ¬ spawn_due now g → spawn_phase now g rng = (g, rng).
Proof. intros Hd. unfold spawn_phase. by rewrite decide_False. Qed.

Lemma spawn_phase_suppressed (now : R) g rng :
  spawn_due now g → ¬ spawnPerSecond g > 0 →
  spawn_phase now g rng = (set_lastSpawn now g, rng).
Proof.
  intros Hd Hs. unfold spawn_phase. rewrite decide_True by done.
  by rewrite decide_False.
Qed.

Lemma spawn_phase_spawns (now : R) g rng :
  spawn_due now g → spawnPerSecond g > 0 →
  (spawn_phase now g rng).1
  = (_spawnShape (draws rng (cursor rng) * width g) (-50) false
       (set_lastSpawn now g) (mkRng (draws rng) (S (cursor rng)))).1.
Proof.
  intros Hd Hs. unfold spawn_phase. rewrite decide_True by done.
  by rewrite decide_True.
Qed.

(** The spawn part of [_update] appends at most one new object and leaves
    every other object and every setting as it was. *)
Lemma spawn_phase_spec (now : R) g rng :
  ∃ born,
    shapes (spawn_phase now g rng).1 = shapes g ++ born ∧
    (born = [] ∨ born = [fresh (dom (store g))]) ∧
    (∀ r, is_Some (store g !! r) →
          store (spawn_phase now g rng).1 !! r = store g !! r) ∧
    (∀ r, r ∈ born → is_Some (store (spawn_phase now g rng).1 !! r)) ∧
    width (spawn_phase now g rng).1 = width g ∧
    height (spawn_phase now g rng).1 = height g ∧
    gravity (spawn_phase now g rng).1 = gravity g ∧
    spawnPerSecond (spawn_phase now g rng).1 = spawnPerSecond g.
Proof.
  destruct (decide (spawn_due now g)) as [Hd|Hd].
  - destruct (decide (spawnPerSecond g > 0)) as [Hs|Hs].
    + rewrite spawn_phase_spawns by done.
      destruct (spawnShape_spec (draws rng (cursor rng) * width g) (-50) false
                  (set_lastSpawn now g) (mkRng (draws rng) (S (cursor rng))))
        as (s & -> & _).
      exists [fresh (dom (store g))]. cbn. repeat split; auto.
      * intros r [s' Hr]. apply lookup_insert_ne. intros <-.
        by rewrite fresh_not_in_store in Hr.
      * intros r ->%list_elem_of_singleton. by rewrite lookup_insert_eq.
    + rewrite spawn_phase_suppressed by done.
      exists []. cbn. rewrite app_nil_r. repeat split; auto.
      intros r []%elem_of_nil.
  - rewrite spawn_phase_not_due by done.
    exists []. cbn. rewrite app_nil_r. repeat split; auto.
    intros r []%elem_of_nil.
Qed.

Lemma log_spawn_phase (now : R) g rng :
  destroy_log (spawn_phase now g rng).1 = destroy_log g.
Proof.
  destruct (decide (spawn_due now g)) as [Hd|Hd].
  - destruct (decide (spawnPerSecond g > 0)) as [Hs|Hs].
    + rewrite spawn_phase_spawns by done.
      by destruct (spawnShape_spec (draws rng (cursor rng) * width g) (-50)
                     false (set_lastSpawn now g)
                     (mkRng (draws rng) (S (cursor rng)))) as (s & -> & _).
    + by rewrite spawn_phase_suppressed.
  - by rewrite spawn_phase_not_due.
Qed.

Lemma cull_preserved {A} (h : Graphics → A) (limit : R) (l : list nat)
    (st : gmap nat Graphics) r :
  (∀ s, h (destroy s) = h s) →
  h <$> (cull limit l st).2 !! r = h <$> st !! r.
Proof.
  intros Hh. rewrite cull_store. case_decide; [|done].
  destruct (st !! r); simpl; by rewrite ?Hh.
Qed.

End UpdateLoop.

(** ** The invariant of the [shapes] array *)

Section Invariant.
Implicit Types (g : Game) (rng : Rng) (r : nat).

Lemma Inv_new (og os : option R) (w h : R) : Inv (Game_new og os w h).
Proof. split; [apply NoDup_nil_2 | by intros r ?%elem_of_nil]. Qed.

Lemma Inv_spawnShape (px py : R) (irr : bool) g rng :
  Inv g → Inv (_spawnShape px py irr g rng).1.
Proof.
  intros [Hnd Hcl]. destruct (spawnShape_spec px py irr g rng) as (s & -> & _).
  split; cbn.
  - apply NoDup_app. split; [done|]. split; [|apply NoDup_singleton].
    intros r Hr ->%list_elem_of_singleton.
    apply Hcl in Hr as [s' Hr]. by rewrite fresh_not_in_store in Hr.
  - intros r [Hr| ->%list_elem_of_singleton]%elem_of_app.
    + rewrite lookup_insert_is_Some'. right. by apply Hcl.
    + by rewrite lookup_insert_eq.
Qed.

Lemma Inv_removeShape r g : Inv g → Inv (_removeShape r g).
Proof.
  intros [Hnd Hcl]. destruct (decide (r ∈ shapes g)) as [Hr|Hr].
  - destruct (indexOf_in _ _ Hr) as (l1 & l2 & Hg & Hl1 & _).
    rewrite (removeShape_in r g l1 l2) by done. rewrite Hg in Hnd, Hcl.
    split; cbn.
    + apply NoDup_app in Hnd as (H1 & H2 & H3%NoDup_cons).
      apply NoDup_app. split; [done|]. split; [|apply H3].
      intros r' Hr' Hin. apply (H2 r' Hr'). by right.
    + intros r' Hr'. rewrite lookup_alter_is_Some. apply Hcl.
      apply elem_of_app in Hr' as [Hr'|Hr']; apply elem_of_app;
        [by left | right; by right].
  - rewrite removeShape_notin by done. split; cbn; [done|].
    intros r' Hr'. rewrite lookup_alter_is_Some. by apply Hcl.
Qed.

Lemma Inv_resetGame g : Inv (_resetGame g).
Proof. split; [apply NoDup_nil_2 | by intros r ?%elem_of_nil]. Qed.

Lemma Inv_gravity_phase (delta : R) g : Inv g → Inv (gravity_phase delta g).
Proof.
  intros [Hnd Hcl]. split; cbn; [done|].
  intros r Hr. apply forEach_is_Some. by apply Hcl.
Qed.

Lemma Inv_cull_phase g : Inv g → Inv (cull_phase g).
Proof.
  intros [Hnd Hcl]. split.
  - rewrite shapes_cull_phase, cull_kept. by apply NoDup_filter.
  - intros r. rewrite shapes_cull_phase, store_cull_phase, cull_kept.
    intros [_ Hr]%list_elem_of_filter.
    rewrite <- (fmap_is_Some (λ _, ())), (cull_preserved (λ _, ())) by done.
    rewrite fmap_is_Some. by apply Hcl.
Qed.

Lemma Inv_spawn_phase (now : R) g rng : Inv g → Inv (spawn_phase now g rng).1.
Proof.
  intros HI. unfold spawn_phase.
  repeat case_decide; try done.
  by apply (Inv_spawnShape _ _ false (set_lastSpawn now g)).
Qed.

Lemma Inv_update (now delta : R) g rng : Inv g → Inv (_update now delta g rng).1.
Proof.
  intros HI. rewrite update_eq.
  by apply Inv_cull_phase, Inv_gravity_phase, Inv_spawn_phase.
Qed.

Lemma Inv_step (e : Event) g rng : Inv g → Inv (step e g rng).1.
Proof.
  intros HI. destruct e; cbn [step].
  - by apply Inv_update.
  - by apply Inv_spawnShape.
  - unfold ret, shape_pointerdown. cbn.
    destruct (store g !! r) as [s|]; [|done].
    destruct (pointerdown s); [|done]. by apply Inv_removeShape.
  - apply Inv_resetGame.
  - done.
  - done.
  - done.
  - done.
Qed.

Lemma run_cons (e : Event) (es : list Event) g rng :
  run (e :: es) g rng = run es (step e g rng).1 (step e g rng).2.
Proof. cbn [run]. unfold bind. by destruct (step e g rng). Qed.

Lemma Inv_run (es : list Event) g rng : Inv g → Inv (run es g rng).1.
Proof.
  revert g rng. induction es as [|e es IH]; intros g rng HI; [done|].
  rewrite run_cons. by apply IH, Inv_step.
Qed.

End Invariant.

(** ** The tick *)

(** C2. After [_update], every shape left in [shapes] has
    [y <= height + 100]; a shape whose [y] exceeds [height + 100] after the
    gravity step is no longer in [shapes] and is destroyed: [destroy()] was
    called on it and its [destroyed] flag is set; a shape whose [y] does not
    is kept as it is; and the [destroy()] calls of the tick are exactly those
    on the shapes dropped, in array order. *)
Theorem update_culls_offscreen (now delta : R) (g : Game) (rng : Rng) :
  let g2 := gravity_phase delta (spawn_phase now g rng).1 in
  let g' := (_update now delta g rng).1 in
  height g' = height g ∧
  (∀ r s, r ∈ shapes g' → store g' !! r = Some s → y s <= height g' + 100) ∧
  (∀ r s, r ∈ shapes g2 → store g2 !! r = Some s → y s > height g + 100 →
          (r ∉ shapes g') ∧ store g' !! r = Some (destroy s) ∧
          (∃ s', store g' !! r = Some s' ∧ destroyed s' = true) ∧
          r ∈ destroy_log g') ∧
  (∀ r s, r ∈ shapes g2 → store g2 !! r = Some s → y s <= height g + 100 →
          r ∈ shapes g' ∧ store g' !! r = Some s) ∧
  destroy_log g'
  = destroy_log g
    ++ filter (λ r, offscreen (height g + 100) (store g2) r) (shapes g2).
Proof.
  intros g2 g'.
  destruct (spawn_phase_spec now g rng) as (born & _ & _ & _ & _ & _ & Hh & _).
  assert (height g2 = height g) as Hh2 by done.
  assert (height g' = height g) as Hh'.
  { unfold g'. rewrite update_eq. rewrite <- Hh2.
    exact (proj1 (proj2 (cull_phase_settings g2))). }
  assert (shapes g' = filter (λ r, ¬ offscreen (height g + 100) (store g2) r)
                        (shapes g2)) as Hsh.
  { unfold g'. rewrite update_eq.
    change (shapes (_updateStats ?a)) with (shapes a). fold g2.
    by rewrite shapes_cull_phase, cull_kept, Hh2. }
  assert (∀ r, store g' !! r
               = if decide (r ∈ shapes g2 ∧ offscreen (height g + 100) (store g2) r)
                 then destroy <$> store g2 !! r else store g2 !! r) as Hst.
  { intros r. unfold g'. rewrite update_eq.
    change (store (_updateStats ?a)) with (store a). fold g2.
    by rewrite store_cull_phase, cull_store, Hh2. }
  assert (destroy_log g'
          = destroy_log g
            ++ filter (λ r, offscreen (height g + 100) (store g2) r)
                 (shapes g2)) as Hlog.
  { unfold g'. rewrite update_eq.
    change (destroy_log (_updateStats ?a)) with (destroy_log a). fold g2.
    rewrite log_cull_phase, Hh2. f_equal. unfold g2.
    change (destroy_log (gravity_phase ?d ?a)) with (destroy_log a).
    apply log_spawn_phase. }
  split; [done|]. rewrite Hh', Hsh. split; [|split; [|split; [|done]]].
  - intros r s [Hoff Hr]%list_elem_of_filter Hs.
    rewrite Hst, decide_False in Hs by (by intros [_ ?]).
    unfold offscreen in Hoff. rewrite Hs in Hoff.
    apply Rnot_gt_le. intros Hgt. apply Hoff. by apply bool_decide_pack.
  - intros r s Hr Hs Hgt.
    assert (offscreen (height g + 100) (store g2) r) as Hoff.
    { unfold offscreen. rewrite Hs. by apply bool_decide_pack. }
    assert (store g' !! r = Some (destroy s)) as Hs'
      by (by rewrite Hst, decide_True, Hs).
    split; [by intros [Hno _]%list_elem_of_filter|].
    split; [done|]. split; [by exists (destroy s)|].
    rewrite Hlog. apply elem_of_app. right. by apply list_elem_of_filter.
  - intros r s Hr Hs Hle.
    assert (¬ offscreen (height g + 100) (store g2) r) as Hoff.
    { unfold offscreen. rewrite Hs. intros Hgt%bool_decide_unpack. lra. }
    split.
    + by apply list_elem_of_filter.
    + by rewrite Hst, decide_False by (by intros [_ ?]).
Qed.

(** The gravity step of a tick of [game_one py] in which no spawn is due. *)
Lemma game_one_falls (py : R) :
  shapes (gravity_phase 1 (spawn_phase 0 (game_one py) rng0).1) = [0%nat] ∧
  store (gravity_phase 1 (spawn_phase 0 (game_one py) rng0).1) !! 0%nat
    = Some (shape_at 10 (py + 1 * 1)).
Proof.
  rewrite spawn_phase_not_due.
  - split; [done|]. cbn. by rewrite lookup_alter_eq, lookup_singleton_eq.
  - unfold spawn_due, spawn_interval, JS.or. cbn.
    destruct (Req_dec_T 1 0); lra.
Qed.

(** A shape at [y = 700] in a window of height 600 leaves the screen in the
    next tick. *)
Lemma update_culls_offscreen_witness :
  (0%nat ∉ shapes (_update 0 1 (game_one 700) rng0).1) ∧
  store (_update 0 1 (game_one 700) rng0).1 !! 0%nat
    = Some (destroy (shape_at 10 (700 + 1 * 1))) ∧
  (∃ s', store (_update 0 1 (game_one 700) rng0).1 !! 0%nat = Some s' ∧
         destroyed s' = true) ∧
  0%nat ∈ destroy_log (_update 0 1 (game_one 700) rng0).1.
Proof.
  destruct (game_one_falls 700) as [Hsh Hst].
  destruct (update_culls_offscreen 0 1 (game_one 700) rng0) as (_ & _ & Hcull & _).
  apply (Hcull 0%nat (shape_at 10 (700 + 1 * 1))).
  - rewrite Hsh. apply list_elem_of_singleton. reflexivity.
  - exact Hst.
  - cbn. lra.
Defined.

(** ** The settings *)

Section Controls.
Implicit Types (g : Game) (rng : Rng).

(** Only the four control handlers change the settings. *)
Lemma spawnShape_settings (px py : R) (irr : bool) g rng :
  gravity (_spawnShape px py irr g rng).1 = gravity g ∧
  spawnPerSecond (_spawnShape px py irr g rng).1 = spawnPerSecond g.
Proof. by destruct (spawnShape_spec px py irr g rng) as (s & -> & _). Qed.

Lemma update_settings (now delta : R) g rng :
  gravity (_update now delta g rng).1 = gravity g ∧
  spawnPerSecond (_update now delta g rng).1 = spawnPerSecond g.
Proof.
  rewrite update_eq.
  change (gravity (_updateStats ?a)) with (gravity a).
  change (spawnPerSecond (_updateStats ?a)) with (spawnPerSecond a).
  destruct (cull_phase_settings
              (gravity_phase delta (spawn_phase now g rng).1))
    as (_ & _ & -> & -> & _).
  change (gravity (gravity_phase ?d ?a)) with (gravity a).
  change (spawnPerSecond (gravity_phase ?d ?a)) with (spawnPerSecond a).
  by destruct (spawn_phase_spec now g rng) as (born & _ & _ & _ & _ & _ & _ & -> & ->).
Qed.

Lemma removeShape_settings (r : nat) g :
  gravity (_removeShape r g) = gravity g ∧
  spawnPerSecond (_removeShape r g) = spawnPerSecond g.
Proof. unfold _removeShape. by case_decide. Qed.

Lemma step_settings_nonneg (e : Event) g rng :
  0 <= gravity g → 0 <= spawnPerSecond g →
  0 <= gravity (step e g rng).1 ∧ 0 <= spawnPerSecond (step e g rng).1.
Proof.
  intros Hg Hs. destruct e; cbn [step].
  - by destruct (update_settings now delta g rng) as [-> ->].
  - unfold stage_pointerdown.
    by destruct (spawnShape_settings px py true g rng) as [-> ->].
  - unfold ret, shape_pointerdown. cbn [fst].
    destruct (store g !! r) as [s|]; [|done].
    destruct (pointerdown s); [|done].
    by destruct (removeShape_settings r g) as [-> ->].
  - done.
  - cbn. unfold SPAWN_STEP. split; [done|lra].
  - cbn. split; [done|apply Rmax_l].
  - cbn. unfold GRAVITY_STEP. split; [lra|done].
  - cbn. split; [apply Rmax_l|done].
Qed.

(** Ticks, clicks and resizes leave the settings alone. *)
Lemma step_settings_unchanged (e : Event) g rng :
  is_control e = false →
  gravity (step e g rng).1 = gravity g ∧
  spawnPerSecond (step e g rng).1 = spawnPerSecond g.
Proof.
  intros He. destruct e; try discriminate He; cbn [step].
  - apply update_settings.
  - unfold stage_pointerdown. apply spawnShape_settings.
  - unfold ret, shape_pointerdown. cbn [fst].
    destruct (store g !! r) as [s|]; [|done].
    destruct (pointerdown s); [|done]. apply removeShape_settings.
  - done.
Qed.

Lemma Rmax_0_pred (n : nat) : Rmax 0 (INR n - 1) = INR (Nat.pred n).
Proof.
  destruct n as [|n].
  - cbn. rewrite Rmax_left; lra.
  - rewrite S_INR. cbn [Nat.pred]. pose proof (pos_INR n).
    rewrite Rmax_right by lra. lra.
Qed.

(** The settings start as natural numbers and every event keeps them so. *)
Lemma step_settings_nat (e : Event) g rng (n m : nat) :
  gravity g = INR n → spawnPerSecond g = INR m →
  ∃ n' m' : nat, gravity (step e g rng).1 = INR n' ∧
                 spawnPerSecond (step e g rng).1 = INR m'.
Proof.
  intros Hg Hs. destruct (is_control e) eqn:He.
  - destruct e; try discriminate He; cbn [step]; unfold ret; cbn [fst].
    + exists n, (S m). rewrite S_INR, <- Hg, <- Hs. done.
    + exists n, (Nat.pred m). rewrite <- Rmax_0_pred, <- Hg, <- Hs. done.
    + exists (S n), m. rewrite S_INR, <- Hg, <- Hs. done.
    + exists (Nat.pred n), m. rewrite <- Rmax_0_pred, <- Hg, <- Hs. done.
  - destruct (step_settings_unchanged e g rng He) as [-> ->]. by exists n, m.
Qed.

Lemma run_settings_nat (es : list Event) g rng (n m : nat) :
  gravity g = INR n → spawnPerSecond g = INR m →
  ∃ n' m' : nat, gravity (run es g rng).1 = INR n' ∧
                 spawnPerSecond (run es g rng).1 = INR m'.
Proof.
  revert g rng n m. induction es as [|e es IH]; intros g rng n m Hg Hs.
  { by exists n, m. }
  rewrite run_cons.
  destruct (step_settings_nat e g rng n m Hg Hs) as (n' & m' & Hg' & Hs').
  by apply (IH _ _ n' m').
Qed.

Lemma game_main_settings (w h : R) :
  gravity (game_main w h) = INR 1 ∧ spawnPerSecond (game_main w h) = INR 1.
Proof. done. Qed.

(** Pressing a button [n] times. *)
Lemma updateControls_set_gravity (v v' : R) g :
  _updateControls (set_gravity v (_updateControls (set_gravity v' g)))
  = _updateControls (set_gravity v g).
Proof. done. Qed.

Lemma updateControls_set_spawnPerSecond (v v' : R) g :
  _updateControls
    (set_spawnPerSecond v (_updateControls (set_spawnPerSecond v' g)))
  = _updateControls (set_spawnPerSecond v g).
Proof. done. Qed.

Lemma Rmax_0_step (a : R) (n : nat) :
  Rmax 0 (Rmax 0 (a - INR (S n)) - 1) = Rmax 0 (a - INR (S (S n))).
Proof.
  rewrite (S_INR (S n)). unfold Rmax.
  repeat destruct (Rle_dec _ _); lra.
Qed.

Lemma iter_grav_dec (n : nat) g :
  Nat.iter (S n) grav_dec g = spec_setGravity (gravity g - INR (S n)) g.
Proof.
  induction n as [|n IH].
  - cbn. unfold grav_dec, spec_setGravity, GRAVITY_STEP, JS.Math_max. done.
  - change (Nat.iter (S (S n)) grav_dec g)
      with (grav_dec (Nat.iter (S n) grav_dec g)).
    rewrite IH. unfold grav_dec, spec_setGravity, GRAVITY_STEP, JS.Math_max.
    rewrite updateControls_set_gravity.
    change (gravity (_updateControls (set_gravity ?v g))) with v.
    by rewrite Rmax_0_step.
Qed.

Lemma iter_spawn_dec (n : nat) g :
  Nat.iter (S n) spawn_dec g
  = spec_setSpawnRate (spawnPerSecond g - INR (S n)) g.
Proof.
  induction n as [|n IH].
  - cbn. unfold spawn_dec, spec_setSpawnRate, SPAWN_STEP, JS.Math_max. done.
  - change (Nat.iter (S (S n)) spawn_dec g)
      with (spawn_dec (Nat.iter (S n) spawn_dec g)).
    rewrite IH. unfold spawn_dec, spec_setSpawnRate, SPAWN_STEP, JS.Math_max.
    rewrite updateControls_set_spawnPerSecond.
    change (spawnPerSecond (_updateControls (set_spawnPerSecond ?v g))) with v.
    by rewrite Rmax_0_step.
Qed.

Lemma iter_grav_inc (n : nat) g :
  0 <= gravity g →
  Nat.iter (S n) grav_inc g = spec_setGravity (gravity g + INR (S n)) g.
Proof.
  intros Hg. pose proof (pos_INR (S n)) as Hn.
  unfold spec_setGravity. rewrite Rmax_right by lra. clear Hn.
  induction n as [|n IH].
  - cbn. unfold grav_inc, GRAVITY_STEP. done.
  - change (Nat.iter (S (S n)) grav_inc g)
      with (grav_inc (Nat.iter (S n) grav_inc g)).
    rewrite IH. unfold grav_inc, GRAVITY_STEP.
    rewrite updateControls_set_gravity.
    change (gravity (_updateControls (set_gravity ?v g))) with v.
    rewrite (S_INR (S n)). do 2 f_equal. lra.
Qed.

Lemma iter_spawn_inc (n : nat) g :
  0 <= spawnPerSecond g →
  Nat.iter (S n) spawn_inc g = spec_setSpawnRate (spawnPerSecond g + INR (S n)) g.
Proof.
  intros Hg. pose proof (pos_INR (S n)) as Hn.
  unfold spec_setSpawnRate. rewrite Rmax_right by lra. clear Hn.
  induction n as [|n IH].
  - cbn. unfold spawn_inc, SPAWN_STEP. done.
  - change (Nat.iter (S (S n)) spawn_inc g)
      with (spawn_inc (Nat.iter (S n) spawn_inc g)).
    rewrite IH. unfold spawn_inc, SPAWN_STEP.
    rewrite updateControls_set_spawnPerSecond.
    change (spawnPerSecond (_updateControls (set_spawnPerSecond ?v g))) with v.
    rewrite (S_INR (S n)). do 2 f_equal. lra.
Qed.

End Controls.

(** ** The spawn timer *)

Lemma spawn_interval_eq (g : Game) :
  spawn_interval g
  = 1000 / (if decide (spawnPerSecond g = 0) then 1 else spawnPerSecond g).
Proof.
  unfold spawn_interval, JS.or.
  destruct (Req_dec_T (spawnPerSecond g) 0), (decide (spawnPerSecond g = 0));
    done.
Qed.

(** C3, as the code has it. The spawn interval is [1000 / spawnPerSecond], and
    [1000] when [spawnPerSecond] is 0; it is [1000 / max(spawnPerSecond, 1)]
    when [spawnPerSecond] is 0 or at least 1, and so it is in every state the
    program reaches from its one construction, where the rate is a natural
    number.  When the time since the last spawn reaches the interval, the
    spawn clock is set to the current time, and one new shape is pushed, at
    [y = -50], if and only if [spawnPerSecond > 0]; before that, nothing
    changes. *)
Theorem spawn_timer (now delta : R) (g : Game) (rng : Rng) :
  let g1 := (spawn_phase now g rng).1 in
  spawn_interval g
    = 1000 / (if decide (spawnPerSecond g = 0) then 1 else spawnPerSecond g) ∧
  (spawnPerSecond g = 0 ∨ 1 <= spawnPerSecond g →
   spawn_interval g = 1000 / Rmax (spawnPerSecond g) 1) ∧
  (∀ es w h rng',
     let g' := (run es (game_main w h) rng').1 in
     (∃ m : nat, spawnPerSecond g' = INR m) ∧
     (spawnPerSecond g' = 0 ∨ 1 <= spawnPerSecond g') ∧
     spawn_interval g' = 1000 / Rmax (spawnPerSecond g') 1) ∧
  (now - _lastSpawn g >= spawn_interval g →
   _lastSpawn g1 = now ∧
   _lastSpawn (_update now delta g rng).1 = now ∧
   (spawnPerSecond g > 0 →
    ∃ r s, store g !! r = None ∧
           shapes g1 = shapes g ++ [r] ∧
           store g1 = <[r := s]> (store g) ∧
           x s = draws rng (cursor rng) * width g ∧ y s = -50) ∧
   (¬ spawnPerSecond g > 0 → shapes g1 = shapes g ∧ store g1 = store g)) ∧
  (now - _lastSpawn g < spawn_interval g → g1 = g).
Proof.
  intros g1.
  assert (∀ g0, spawnPerSecond g0 = 0 ∨ 1 <= spawnPerSecond g0 →
                spawn_interval g0 = 1000 / Rmax (spawnPerSecond g0) 1) as Hmax.
  { intros g0 [H0|H1]; rewrite spawn_interval_eq.
    - rewrite decide_True by done. rewrite H0, Rmax_right by lra. done.
    - rewrite decide_False by lra. by rewrite Rmax_left. }
  split; [apply spawn_interval_eq|]. split; [apply Hmax|]. split; [|split].
  - intros es w h rng' g'.
    destruct (run_settings_nat es (game_main w h) rng' 1 1)
      as (n' & m' & _ & Hm); [done..|]. fold g' in Hm.
    assert (spawnPerSecond g' = 0 ∨ 1 <= spawnPerSecond g') as Hrate.
    { rewrite Hm. destruct m' as [|m']; [by left|right].
      rewrite S_INR. pose proof (pos_INR m'). lra. }
    split; [by exists m'|]. split; [done|]. by apply Hmax.
  - intros Hdue. change (spawn_due now g) in Hdue.
    assert (_lastSpawn g1 = now) as Hclock.
    { unfold g1. destruct (decide (spawnPerSecond g > 0)) as [Hs|Hs].
      - rewrite spawn_phase_spawns by done.
        by destruct (spawnShape_spec (draws rng (cursor rng) * width g) (-50)
                       false (set_lastSpawn now g)
                       (mkRng (draws rng) (S (cursor rng)))) as (s & -> & _).
      - by rewrite spawn_phase_suppressed. }
    split; [done|]. split; [|split].
    + rewrite update_eq. fold g1.
      change (_lastSpawn (_updateStats ?a)) with (_lastSpawn a).
      destruct (cull_phase_settings (gravity_phase delta g1))
        as (_ & _ & _ & _ & -> & _). done.
    + intros Hs. unfold g1. rewrite spawn_phase_spawns by done.
      destruct (spawnShape_spec (draws rng (cursor rng) * width g) (-50)
                  false (set_lastSpawn now g)
                  (mkRng (draws rng) (S (cursor rng))))
        as (s & -> & Hx & Hy & _).
      exists (fresh (dom (store g))), s.
      split; [apply fresh_not_in_store|]. done.
    + intros Hs. unfold g1. by rewrite spawn_phase_suppressed.
  - intros Hlt. unfold g1. rewrite spawn_phase_not_due; [done|].
    unfold spawn_due. lra.
Qed.

(** With the default rate of one shape per second, a tick at time 1000 spawns
    a shape. *)
Lemma spawn_timer_witness :
  _lastSpawn (spawn_phase 1000 (game_one 0) rng0).1 = 1000 ∧
  ∃ r s, store (game_one 0) !! r = None ∧
         shapes (spawn_phase 1000 (game_one 0) rng0).1 = [0%nat] ++ [r] ∧
         store (spawn_phase 1000 (game_one 0) rng0).1
           = <[r := s]> (store (game_one 0)) ∧
         x s = 0 * 800 ∧ y s = -50.
Proof.
  assert (spawn_interval (game_one 0) = 1000) as Hi.
  { unfold spawn_interval, JS.or. cbn. destruct (Req_dec_T 1 0); lra. }
  assert (1000 - _lastSpawn (game_one 0) >= spawn_interval (game_one 0)) as Hdue.
  { rewrite Hi. cbn. lra. }
  assert (spawnPerSecond (game_one 0) > 0) as Hpos by (cbn; lra).
  destruct (spawn_timer 1000 1 (game_one 0) rng0) as (_ & _ & _ & Hspawn & _).
  destruct (Hspawn Hdue) as (Hclock & _ & Hnew & _).
  exact (conj Hclock (Hnew Hpos)).
Defined.

(** With [spawnPerSecond = 0.5] the interval is 2000, not
    [1000 / max(0.5, 1) = 1000]. *)
Lemma spawn_interval_counterexample :
  0 <= spawnPerSecond game_half ∧
  spawn_interval game_half = 2000 ∧
  spawn_interval game_half ≠ 1000 / Rmax (spawnPerSecond game_half) 1.
Proof.
  assert (spawn_interval game_half = 2000) as Hi.
  { unfold spawn_interval, JS.or. cbn. destruct (Req_dec_T (1 / 2) 0); lra. }
  split; [cbn; lra|]. split; [done|].
  rewrite Hi. cbn. rewrite Rmax_right by lra. lra.
Qed.

(** ** The controls *)

(** C6. In every state the program reaches from its one construction,
    gravity and spawn rate are not negative; a decrease action stores
    [max(0, value - 1)], which is never negative, and an increase action adds
    exactly 1; the display shows the stored values; no other event changes
    either setting.  The code sets a value only through these actions:
    pressing decrease [n] times is the specification's
    [setGravity(gravity - n)], clamped at 0, and pressing increase [n] times
    is its [setGravity(gravity + n)].  So from the gravity 1 of the
    construction, asking for -5, by six decreases, stores 0, and then asking
    for 3, by three increases, stores 3. *)
Theorem controls_keep_settings_nonnegative :
  (∀ g, gravity (grav_dec g) = Rmax 0 (gravity g - 1) ∧
        0 <= gravity (grav_dec g) ∧
        spawnPerSecond (grav_dec g) = spawnPerSecond g) ∧
  (∀ g, spawnPerSecond (spawn_dec g) = Rmax 0 (spawnPerSecond g - 1) ∧
        0 <= spawnPerSecond (spawn_dec g) ∧
        gravity (spawn_dec g) = gravity g) ∧
  (∀ g, gravity (grav_inc g) = gravity g + 1 ∧
        spawnPerSecond (grav_inc g) = spawnPerSecond g) ∧
  (∀ g, spawnPerSecond (spawn_inc g) = spawnPerSecond g + 1 ∧
        gravity (spawn_inc g) = gravity g) ∧
  (∀ g f, f ∈ [grav_inc; grav_dec; spawn_inc; spawn_dec] →
          gravityValEl (page (f g)) = Some (gravity (f g)) ∧
          spawnRateEl (page (f g)) = Some (spawnPerSecond (f g))) ∧
  (∀ w h, gravity (Game_new None None w h) = 1 ∧
          spawnPerSecond (Game_new None None w h) = 1 ∧
          gravity (game_main w h) = 1 ∧
          spawnPerSecond (game_main w h) = 1) ∧
  (∀ es g rng, 0 <= gravity g → 0 <= spawnPerSecond g →
               0 <= gravity (run es g rng).1 ∧
               0 <= spawnPerSecond (run es g rng).1) ∧
  (∀ es w h rng, 0 <= gravity (run es (game_main w h) rng).1 ∧
                 0 <= spawnPerSecond (run es (game_main w h) rng).1) ∧
  (∀ e g rng, is_control e = false →
              gravity (step e g rng).1 = gravity g ∧
              spawnPerSecond (step e g rng).1 = spawnPerSecond g) ∧
  (∀ v g, gravity (spec_setGravity v g) = Rmax 0 v ∧
          spawnPerSecond (spec_setSpawnRate v g) = Rmax 0 v) ∧
  (∀ n g, Nat.iter (S n) grav_dec g
          = spec_setGravity (gravity g - INR (S n)) g ∧
          Nat.iter (S n) spawn_dec g
          = spec_setSpawnRate (spawnPerSecond g - INR (S n)) g) ∧
  (∀ n g, 0 <= gravity g →
          Nat.iter (S n) grav_inc g
          = spec_setGravity (gravity g + INR (S n)) g) ∧
  (∀ n g, 0 <= spawnPerSecond g →
          Nat.iter (S n) spawn_inc g
          = spec_setSpawnRate (spawnPerSecond g + INR (S n)) g) ∧
  (∀ g, gravity g <= 1 → gravity (grav_dec g) = 0) ∧
  (∀ g, gravity g = 0 → gravity (grav_inc (grav_inc (grav_inc g))) = 3) ∧
  (∀ w h, Nat.iter 6 grav_dec (game_main w h)
          = spec_setGravity (-5) (game_main w h) ∧
          gravity (Nat.iter 6 grav_dec (game_main w h)) = 0 ∧
          Nat.iter 3 grav_inc (Nat.iter 6 grav_dec (game_main w h))
          = spec_setGravity 3 (spec_setGravity (-5) (game_main w h)) ∧
          gravity (Nat.iter 3 grav_inc (Nat.iter 6 grav_dec (game_main w h)))
          = 3).
Proof.
  assert (∀ es g rng, 0 <= gravity g → 0 <= spawnPerSecond g →
                      0 <= gravity (run es g rng).1 ∧
                      0 <= spawnPerSecond (run es g rng).1) as Hrun.
  { intros es. induction es as [|e es IH]; intros g rng Hg Hs; [done|].
    rewrite run_cons.
    destruct (step_settings_nonneg e g rng Hg Hs). by apply IH. }
  assert (∀ w h, Nat.iter 6 grav_dec (game_main w h)
                 = spec_setGravity (-5) (game_main w h)) as H6.
  { intros w h. rewrite (iter_grav_dec 5). f_equal.
    change (gravity (game_main w h)) with 1. rewrite !S_INR. cbn [INR]. lra. }
  assert (∀ w h, Nat.iter 3 grav_inc (Nat.iter 6 grav_dec (game_main w h))
                 = spec_setGravity 3 (spec_setGravity (-5) (game_main w h)))
    as H3.
  { intros w h. rewrite H6.
    assert (gravity (spec_setGravity (-5) (game_main w h)) = 0) as H0.
    { cbn. rewrite Rmax_left; lra. }
    rewrite (iter_grav_inc 2) by lra. f_equal.
    rewrite H0, !S_INR. cbn [INR]. lra. }
  repeat apply conj.
  - intros g. split; [done|]. split; [apply Rmax_l | done].
  - intros g. split; [done|]. split; [apply Rmax_l | done].
  - done.
  - done.
  - intros g f Hf.
    repeat (apply elem_of_cons in Hf as [->|Hf]; [done|]).
    by apply elem_of_nil in Hf.
  - done.
  - exact Hrun.
  - intros es w h rng. apply Hrun; cbn; lra.
  - apply step_settings_unchanged.
  - done.
  - intros n g. split; [apply iter_grav_dec | apply iter_spawn_dec].
  - apply iter_grav_inc.
  - apply iter_spawn_inc.
  - intros g Hg. cbn. unfold GRAVITY_STEP, JS.Math_max. rewrite Rmax_left; lra.
  - intros g Hg. cbn. unfold GRAVITY_STEP. rewrite Hg. lra.
  - intros w h. split; [apply H6|]. split.
    + rewrite H6. cbn. rewrite Rmax_left; lra.
    + split; [apply H3|]. rewrite H3. cbn. rewrite Rmax_right; lra.
Qed.

(** Starting from the defaults, gravity 1 and rate 1: two decreases of each
    and a tick leave neither negative; a tick changes neither; and three
    increases of gravity are the specification's [setGravity(1 + 3)]. *)
Lemma controls_keep_settings_nonnegative_witness :
  (0 <= gravity (run [GravDec; GravDec; SpawnDec; SpawnDec; Tick 5 1]
                     (Game_new None None 800 600) rng0).1 ∧
   0 <= spawnPerSecond (run [GravDec; GravDec; SpawnDec; SpawnDec; Tick 5 1]
                            (Game_new None None 800 600) rng0).1) ∧
  (gravity (step (Tick 5 1) (game_main 800 600) rng0).1
   = gravity (game_main 800 600) ∧
   spawnPerSecond (step (Tick 5 1) (game_main 800 600) rng0).1
   = spawnPerSecond (game_main 800 600)) ∧
  Nat.iter 3 grav_inc (game_main 800 600)
  = spec_setGravity (gravity (game_main 800 600) + INR 3) (game_main 800 600).
Proof.
  destruct controls_keep_settings_nonnegative
    as (_ & _ & _ & _ & _ & _ & Hrun & _ & Hother & _ & _ & Hinc & _).
  split; [apply Hrun; cbn; lra|].
  split; [apply Hother; reflexivity|].
  apply Hinc. cbn. lra.
Defined.

(** ** Removing a shape *)

(** The first removal of the shape of [game_one 0] calls [destroy()] on it
    once; a second removal calls [destroy()] on it again, so it is not a
    no-op. *)
Lemma removeShape_counterexample :
  destroy_log (_removeShape 0 (game_one 0)) = [0%nat] ∧
  (0%nat ∉ shapes (_removeShape 0 (game_one 0))) ∧
  destroy_log (_removeShape 0 (_removeShape 0 (game_one 0))) = [0%nat; 0%nat] ∧
  _removeShape 0 (_removeShape 0 (game_one 0)) ≠ _removeShape 0 (game_one 0).
Proof.
  assert (destroy_log (_removeShape 0 (_removeShape 0 (game_one 0)))
          = [0%nat; 0%nat]) as H2 by reflexivity.
  split; [reflexivity|]. split.
  - cbn. apply not_elem_of_nil.
  - split; [done|]. intros Heq. rewrite Heq in H2. discriminate H2.
Qed.

(** C7, as the code has it. Every removal calls [destroy()] on the shape, once
    more each time, and leaves it marked destroyed.  Removing a shape that is
    in [shapes] deletes its first occurrence and nothing else, so the count
    drops by exactly 1.  Removing a shape that is not in [shapes], as one
    already removed, leaves [shapes], the settings, the spawn clock, the page
    and every other object as they are: the one thing it does is the further
    [destroy()] call. *)
Theorem removeShape_repeated (r : Ref) (g : Game) :
  store (_removeShape r g) = alter destroy r (store g) ∧
  destroy_log (_removeShape r g) = destroy_log g ++ [r] ∧
  (∀ s, store g !! r = Some s →
        ∃ s', store (_removeShape r g) !! r = Some s' ∧ destroyed s' = true) ∧
  (∀ r', r' ≠ r → store (_removeShape r g) !! r' = store g !! r') ∧
  (r ∈ shapes g →
   ∃ l1 l2, shapes g = l1 ++ r :: l2 ∧ (r ∉ l1) ∧
            shapes (_removeShape r g) = l1 ++ l2 ∧
            (length (shapes (_removeShape r g)) + 1 = length (shapes g))%nat) ∧
  (r ∉ shapes g →
   _removeShape r g = log_destroy [r] (set_store (alter destroy r (store g)) g) ∧
   shapes (_removeShape r g) = shapes g ∧
   ∀ s, store g !! r = Some s → destroyed s = true →
        _removeShape r g = log_destroy [r] g) ∧
  (NoDup (shapes g) →
   (r ∉ shapes (_removeShape r g)) ∧
   _removeShape r (_removeShape r g) = log_destroy [r] (_removeShape r g)).
Proof.
  assert (store (_removeShape r g) = alter destroy r (store g)) as Hst
    by (unfold _removeShape; by case_decide).
  split; [done|]. split; [|split; [|split; [|split; [|split]]]].
  - unfold _removeShape. by case_decide.
  - intros s Hs. exists (destroy s).
    by rewrite Hst, lookup_alter_eq, Hs.
  - intros r' Hne. by rewrite Hst, lookup_alter_ne.
  - intros Hr. destruct (indexOf_in _ _ Hr) as (l1 & l2 & Hg & Hl1 & _).
    exists l1, l2. rewrite (removeShape_in r g l1 l2) by done.
    repeat split; [done..|]. cbn. rewrite Hg, !length_app. cbn. lia.
  - intros Hr. rewrite removeShape_notin by done. split; [done|].
    split; [done|].
    intros s Hs Hd. rewrite (alter_destroy_destroyed _ _ s) by done.
    by rewrite set_store_same.
  - intros Hnd.
    assert (r ∉ shapes (_removeShape r g)) as Hgone.
    { destruct (decide (r ∈ shapes g)) as [Hr|Hr].
      - destruct (indexOf_in _ _ Hr) as (l1 & l2 & Hg & Hl1 & _).
        rewrite (removeShape_in r g l1 l2) by done. cbn.
        rewrite Hg in Hnd. apply NoDup_app in Hnd as (_ & _ & [Hl2 _]%NoDup_cons).
        apply not_elem_of_app. by split.
      - by rewrite removeShape_notin. }
    split; [done|].
    rewrite (removeShape_notin r (_removeShape r g)) by done.
    rewrite Hst at 1. rewrite alter_destroy_twice, <- Hst.
    by rewrite set_store_same.
Qed.

(** Clicking the shape of [game_one 0], then clicking it again. *)
Lemma removeShape_repeated_witness :
  (0%nat ∉ shapes (_removeShape 0 (game_one 0))) ∧
  _removeShape 0 (_removeShape 0 (game_one 0))
  = log_destroy [0%nat] (_removeShape 0 (game_one 0)).
Proof.
  destruct (removeShape_repeated 0 (game_one 0))
    as (_ & _ & _ & _ & _ & _ & Hidem).
  apply Hidem. cbn. apply NoDup_singleton.
Defined.

(** ** Reset *)

Lemma Math_round_0 : JS.Math_round 0 = 0%Z.
Proof. unfold JS.Math_round. symmetry. apply Int_part_spec. lra. Qed.

(** C8. [_resetGame] destroys every shape that was in [shapes]: it calls
    [destroy()] on each, in array order, which sets the [destroyed] flag of
    each; it empties [shapes], puts the spawn clock back to 0, the value the
    constructor gives it, and displays a count of 0 and a total area of 0; so
    does [_resize]. *)
Theorem resetGame_clears (g : Game) :
  shapes (_resetGame g) = [] ∧
  _lastSpawn (_resetGame g) = 0 ∧
  _lastSpawn (_resetGame g) = _lastSpawn (Game_new None None (width g) (height g)) ∧
  totalArea (store (_resetGame g)) (shapes (_resetGame g)) = 0 ∧
  shapesCountEl (page (_resetGame g)) = Some 0%nat ∧
  shapesAreaEl (page (_resetGame g)) = Some 0%Z ∧
  (∀ r s, r ∈ shapes g → store g !! r = Some s →
          store (_resetGame g) !! r = Some (destroy s) ∧
          ∃ s', store (_resetGame g) !! r = Some s' ∧ destroyed s' = true) ∧
  destroy_log (_resetGame g) = destroy_log g ++ shapes g ∧
  (∀ r, r ∉ shapes g → store (_resetGame g) !! r = store g !! r) ∧
  (∀ w h, _resize w h g = set_size w h (_resetGame g)).
Proof.
  assert (∀ r s, r ∈ shapes g → store g !! r = Some s →
                 store (_resetGame g) !! r = Some (destroy s)) as Hd.
  { intros r s Hr Hs. cbn. by rewrite forEach_lookup_idemp, Hs by done. }
  split; [done|]. split; [done|]. split; [done|]. split; [done|].
  split; [done|]. split; [cbn; by rewrite Math_round_0|].
  split; [|split; [done|split; [|done]]].
  - intros r s Hr Hs. split; [by apply Hd|].
    exists (destroy s). split; [by apply Hd|done].
  - intros r Hr. cbn. by apply forEach_lookup_notin.
Qed.

(** Resetting [game_one 0] destroys its shape. *)
Lemma resetGame_clears_witness :
  store (_resetGame (game_one 0)) !! 0%nat = Some (destroy (shape_at 10 0)) ∧
  ∃ s', store (_resetGame (game_one 0)) !! 0%nat = Some s' ∧
        destroyed s' = true.
Proof.
  destruct (resetGame_clears (game_one 0)) as (_ & _ & _ & _ & _ & _ & Hd & _).
  apply Hd.
  - cbn. apply list_elem_of_singleton. reflexivity.
  - cbn. apply lookup_singleton_eq.
Defined.

(** ** Motion *)

Section Motion.
Implicit Types (g : Game) (rng : Rng) (r : nat).

(** No event moves an object sideways. *)
Lemma spawnShape_keeps_objects (px py : R) (irr : bool) g rng r :
  is_Some (store g !! r) →
  store (_spawnShape px py irr g rng).1 !! r = store g !! r.
Proof.
  intros [s' Hr]. destruct (spawnShape_spec px py irr g rng) as (s & -> & _).
  cbn. apply lookup_insert_ne. intros <-. by rewrite fresh_not_in_store in Hr.
Qed.

Lemma update_keeps_x (now delta : R) g rng r :
  is_Some (store g !! r) →
  x <$> store (_update now delta g rng).1 !! r = x <$> store g !! r.
Proof.
  intros Hr. rewrite update_eq.
  change (store (_updateStats ?a)) with (store a).
  rewrite store_cull_phase, (cull_preserved x) by done.
  change (store (gravity_phase ?d ?a))
    with (forEach (fall (gravity a * d)) (shapes a) (store a)).
  rewrite (forEach_lookup_preserved x) by done.
  destruct (spawn_phase_spec now g rng) as (born & _ & _ & Hk & _).
  by rewrite Hk.
Qed.

Lemma removeShape_keeps_x (r' : nat) g r :
  x <$> store (_removeShape r' g) !! r = x <$> store g !! r.
Proof.
  replace (store (_removeShape r' g)) with (alter destroy r' (store g))
    by (unfold _removeShape; by case_decide).
  destruct (decide (r = r')) as [->|Hne].
  - rewrite lookup_alter_eq. by destruct (store g !! r').
  - by rewrite lookup_alter_ne.
Qed.

Lemma step_keeps_x (e : Event) g rng r :
  is_Some (store g !! r) →
  is_Some (store (step e g rng).1 !! r) ∧
  x <$> store (step e g rng).1 !! r = x <$> store g !! r.
Proof.
  intros Hr.
  assert (x <$> store (step e g rng).1 !! r = x <$> store g !! r) as Hx.
  { destruct e; cbn [step]; try done.
    - by apply update_keeps_x.
    - unfold stage_pointerdown. by rewrite spawnShape_keeps_objects.
    - unfold ret, shape_pointerdown. cbn [fst].
      destruct (store g !! r0) as [s|]; [|done].
      destruct (pointerdown s); [|done]. apply removeShape_keeps_x.
    - cbn. by apply (forEach_lookup_preserved x). }
  split; [|done].
  rewrite <- (fmap_is_Some x), Hx. by rewrite fmap_is_Some.
Qed.

End Motion.

(** C9. In the motion step every live shape has its [y] increased by exactly
    [gravity * delta] and its [x] left as it is; over a whole tick a shape
    that was live at its start has moved by that much and by nothing else;
    and no sequence of events ever changes the [x] of an object.  A shape is
    live when it is in [shapes], where no shape is twice. *)
Theorem gravity_moves_y_only (delta : R) (g : Game) :
  (NoDup (shapes g) →
   ∀ r s, r ∈ shapes g → store g !! r = Some s →
     store (gravity_phase delta g) !! r = Some (fall (gravity g * delta) s) ∧
     y (fall (gravity g * delta) s) = y s + gravity g * delta ∧
     x (fall (gravity g * delta) s) = x s) ∧
  (Inv g →
   ∀ now rng r s, r ∈ shapes g → store g !! r = Some s →
     ∃ s', store (_update now delta g rng).1 !! r = Some s' ∧
           y s' = y s + gravity g * delta ∧ x s' = x s) ∧
  (∀ r, r ∉ shapes g → store (gravity_phase delta g) !! r = store g !! r) ∧
  (∀ es rng r s, store g !! r = Some s →
     ∃ s', store (run es g rng).1 !! r = Some s' ∧ x s' = x s).
Proof.
  split; [|split; [|split]].
  - intros Hnd r s Hr Hs. split; [|done]. cbn.
    by rewrite forEach_lookup_NoDup, Hs.
  - intros HI now rng r s Hr Hs.
    destruct (spawn_phase_spec now g rng)
      as (born & Hsh & _ & Hk & _ & _ & _ & Hgr & _).
    destruct (Inv_spawn_phase now g rng HI) as [Hnd1 _].
    set (g1 := (spawn_phase now g rng).1) in *.
    assert (store (gravity_phase delta g1) !! r
            = Some (fall (gravity g * delta) s)) as Hs2.
    { change (store (gravity_phase delta g1))
        with (forEach (fall (gravity g1 * delta)) (shapes g1) (store g1)).
      rewrite forEach_lookup_NoDup.
      - rewrite Hk by (by rewrite Hs). by rewrite Hs, Hgr.
      - done.
      - rewrite Hsh. apply elem_of_app. by left. }
    rewrite update_eq. fold g1.
    change (store (_updateStats ?a)) with (store a).
    rewrite store_cull_phase, cull_store, Hs2.
    case_decide; eexists; (split; [reflexivity|done]).
  - intros r Hr. cbn. by apply forEach_lookup_notin.
  - intros es. revert g. induction es as [|e es IH]; intros g rng r s Hs.
    { by exists s. }
    rewrite run_cons.
    destruct (step_keeps_x e g rng r) as [[s1 Hs1] Hx]; [by rewrite Hs|].
    destruct (IH (step e g rng).1 (step e g rng).2 r s1 Hs1) as (s' & Hs' & Hx').
    exists s'. split; [done|]. rewrite Hx'.
    rewrite Hs1, Hs in Hx. by injection Hx.
Qed.

(** One tick of [game_one 0]: its shape falls from [y = 0] to [y = 1]. *)
Lemma gravity_moves_y_only_witness :
  store (gravity_phase 1 (game_one 0)) !! 0%nat
    = Some (fall (gravity (game_one 0) * 1) (shape_at 10 0)) ∧
  y (fall (gravity (game_one 0) * 1) (shape_at 10 0))
    = y (shape_at 10 0) + gravity (game_one 0) * 1 ∧
  x (fall (gravity (game_one 0) * 1) (shape_at 10 0)) = x (shape_at 10 0).
Proof.
  destruct (gravity_moves_y_only 1 (game_one 0)) as (Hfall & _).
  apply Hfall.
  - cbn. apply NoDup_singleton.
  - cbn. apply list_elem_of_singleton. reflexivity.
  - cbn. apply lookup_singleton_eq.
Defined.

(** ** Order of the shapes *)

(** C10. The cull of a tick keeps the surviving shapes in the order they
    had, a tick as a whole keeps them in that order with at most one new
    shape behind them, and [_removeShape] takes out at most the first
    occurrence of its shape and leaves the others in place. *)
Theorem removal_preserves_order (now delta : R) (r : Ref) (g : Game) (rng : Rng) :
  shapes (cull_phase g)
    = filter (λ r, ¬ offscreen (height g + 100) (store g) r) (shapes g) ∧
  sublist (shapes (cull_phase g)) (shapes g) ∧
  (∃ born, shapes (spawn_phase now g rng).1 = shapes g ++ born ∧
           (length born ≤ 1)%nat ∧
           sublist (shapes (_update now delta g rng).1) (shapes g ++ born)) ∧
  sublist (shapes (_removeShape r g)) (shapes g) ∧
  (shapes (_removeShape r g) = shapes g ∨
   ∃ l1 l2, shapes g = l1 ++ r :: l2 ∧ (r ∉ l1) ∧
            shapes (_removeShape r g) = l1 ++ l2).
Proof.
  split; [|split; [|split; [|split]]].
  - by rewrite shapes_cull_phase, cull_kept.
  - rewrite shapes_cull_phase, cull_kept. apply sublist_filter.
  - destruct (spawn_phase_spec now g rng) as (born & Hsh & Hborn & _).
    exists born. split; [done|]. split.
    + destruct Hborn as [->| ->]; cbn; lia.
    + rewrite update_eq, <- Hsh.
      change (shapes (_updateStats ?a)) with (shapes a).
      rewrite shapes_cull_phase, cull_kept. apply sublist_filter.
  - destruct (decide (r ∈ shapes g)) as [Hr|Hr].
    + destruct (indexOf_in _ _ Hr) as (l1 & l2 & Hg & Hl1 & _).
      rewrite (removeShape_in r g l1 l2) by done. cbn. rewrite Hg.
      apply sublist_app; [done|]. by apply sublist_cons.
    + by rewrite removeShape_notin.
  - destruct (decide (r ∈ shapes g)) as [Hr|Hr].
    + right. destruct (indexOf_in _ _ Hr) as (l1 & l2 & Hg & Hl1 & _).
      exists l1, l2. by rewrite (removeShape_in r g l1 l2).
    + left. by rewrite removeShape_notin.
Qed.

(** * Further properties *)

(** ** Every object is accounted for *)

Section Resources.
Implicit Types (g : Game) (rng : Rng) (r : nat) (st : gmap nat Graphics).

Lemma live_alter_ne (f : Graphics → Graphics) st r r' :
  r ≠ r' → live (alter f r' st) r ↔ live st r.
Proof. intros Hne. unfold live. by rewrite lookup_alter_ne. Qed.

Lemma not_live_destroy st r : ¬ live (alter destroy r st) r.
Proof.
  unfold live. rewrite lookup_alter_eq. by destruct (st !! r).
Qed.

Lemma Accounted_new (og os : option R) (w h : R) : Accounted (Game_new og os w h).
Proof.
  split; [apply NoDup_nil_2|]. split.
  - intros r. unfold live. cbn. rewrite lookup_empty, elem_of_nil. by split.
  - intros r s. cbn. by rewrite lookup_empty.
Qed.

Lemma Accounted_spawnShape (px py : R) (irr : bool) g rng :
  Accounted g → Accounted (_spawnShape px py irr g rng).1.
Proof.
  intros (Hnd & Hlive & Hclick).
  destruct (spawnShape_spec px py irr g rng) as (s & -> & _ & _ & Hp & Hd).
  set (r0 := fresh (dom (store g))).
  assert (store g !! r0 = None) as Hfresh by apply fresh_not_in_store.
  assert (r0 ∉ shapes g) as Hnew.
  { intros Hin%Hlive. unfold live in Hin. by rewrite Hfresh in Hin. }
  split; [|split]; cbn.
  - apply NoDup_app. split; [done|]. split; [|apply NoDup_singleton].
    by intros r Hr ->%list_elem_of_singleton.
  - intros r. unfold live. rewrite elem_of_app, list_elem_of_singleton.
    destruct (decide (r = r0)) as [->|Hne].
    + rewrite lookup_insert_eq. cbn. rewrite Hd. by split; [|right].
    + rewrite lookup_insert_ne by done. rewrite Hlive. unfold live.
      split; [by intros [?|?]|by left].
  - intros r s'. destruct (decide (r = r0)) as [->|Hne].
    + rewrite lookup_insert_eq. by intros [= <-].
    + rewrite lookup_insert_ne by done. apply Hclick.
Qed.

Lemma clickable_alter (f : Graphics → Graphics) st r :
  (∀ s, pointerdown (f s) = pointerdown s) →
  (∀ r' s, st !! r' = Some s → pointerdown s = true) →
  ∀ r' s, alter f r st !! r' = Some s → pointerdown s = true.
Proof.
  intros Hf Hclick r' s. destruct (decide (r' = r)) as [->|Hne].
  - rewrite lookup_alter_eq. destruct (st !! r) as [s0|] eqn:Hs0; [|done].
    intros [= <-]. rewrite Hf. by apply (Hclick r).
  - rewrite lookup_alter_ne by done. apply Hclick.
Qed.

Lemma removeShape_shapes r g :
  ((r ∉ shapes g) ∧ shapes (_removeShape r g) = shapes g) ∨
  (∃ l1 l2, shapes g = l1 ++ r :: l2 ∧ (r ∉ l1) ∧
            shapes (_removeShape r g) = l1 ++ l2).
Proof.
  destruct (decide (r ∈ shapes g)) as [Hr|Hr].
  - right. destruct (indexOf_in _ _ Hr) as (l1 & l2 & Hg & Hl1 & _).
    exists l1, l2. by rewrite (removeShape_in r g l1 l2).
  - left. by rewrite removeShape_notin.
Qed.

Lemma store_removeShape r g :
  store (_removeShape r g) = alter destroy r (store g).
Proof. unfold _removeShape. by case_decide. Qed.

Lemma Accounted_removeShape r g : Accounted g → Accounted (_removeShape r g).
Proof.
  intros (Hnd & Hlive & Hclick).
  assert (NoDup (shapes (_removeShape r g)) ∧ (r ∉ shapes (_removeShape r g)) ∧
          ∀ r', r' ≠ r → r' ∈ shapes (_removeShape r g) ↔ r' ∈ shapes g)
    as (Hnd' & Hr & Hothers).
  { destruct (removeShape_shapes r g) as [[Hr ->]|(l1 & l2 & Hg & Hl1 & ->)].
    - done.
    - rewrite Hg in Hnd |- *.
      apply NoDup_app in Hnd as (H1 & H2 & [Hl2 H3]%NoDup_cons).
      split; [|split].
      + apply NoDup_app. split; [done|]. split; [|done].
        intros r' Hr' Hin. apply (H2 r' Hr'). by right.
      + apply not_elem_of_app. by split.
      + intros r' Hne. rewrite !elem_of_app, elem_of_cons. intuition. }
  split; [done|]. rewrite store_removeShape. split.
  - intros r'. destruct (decide (r' = r)) as [->|Hne].
    + split; [done|]. by intros ?%not_live_destroy.
    + by rewrite Hothers, live_alter_ne.
  - by apply clickable_alter.
Qed.

Lemma clickable_forEach (f : Graphics → Graphics) (l : list nat) st :
  (∀ s, pointerdown (f s) = pointerdown s) →
  (∀ r' s, st !! r' = Some s → pointerdown s = true) →
  ∀ r' s, forEach f l st !! r' = Some s → pointerdown s = true.
Proof.
  intros Hf Hclick r' s Hs.
  pose proof (forEach_lookup_preserved pointerdown f l st r' Hf) as Hp.
  rewrite Hs in Hp. cbn in Hp.
  destruct (st !! r') as [s0|] eqn:Hs0; [|done].
  injection Hp as ->. by apply (Hclick r').
Qed.

Lemma Accounted_resetGame g : Accounted g → Accounted (_resetGame g).
Proof.
  intros (Hnd & Hlive & Hclick). split; [apply NoDup_nil_2|]. split; cbn.
  - intros r. rewrite elem_of_nil. split; [done|]. unfold live.
    destruct (decide (r ∈ shapes g)) as [Hr|Hr].
    + rewrite forEach_lookup_idemp by done. by destruct (store g !! r).
    + rewrite forEach_lookup_notin by done. by intros ?%Hlive.
  - by apply clickable_forEach.
Qed.

Lemma Accounted_gravity_phase (delta : R) g :
  Accounted g → Accounted (gravity_phase delta g).
Proof.
  intros (Hnd & Hlive & Hclick). split; [done|]. split; cbn.
  - intros r. unfold live.
    rewrite (forEach_lookup_preserved destroyed) by done. apply Hlive.
  - by apply clickable_forEach.
Qed.

Lemma Accounted_cull_phase g : Accounted g → Accounted (cull_phase g).
Proof.
  intros (Hnd & Hlive & Hclick).
  unfold Accounted. rewrite shapes_cull_phase, store_cull_phase, cull_kept.
  split; [by apply NoDup_filter|]. split.
  - intros r. rewrite list_elem_of_filter. unfold live. rewrite cull_store.
    case_decide as Hc.
    + destruct Hc as [Hr Hoff]. split; [by intros [? _]|].
      by destruct (store g !! r).
    + rewrite Hlive. unfold live. split; [by intros [_ ?]|].
      intros Hl. split; [|done]. intros Hoff. apply Hc. split; [|done].
      by apply Hlive.
  - intros r s. rewrite cull_store. case_decide; [|apply Hclick].
    destruct (store g !! r) as [s0|] eqn:Hs0; [|done].
    intros [= <-]. exact (Hclick r s0 Hs0).
Qed.

Lemma Accounted_step (e : Event) g rng : Accounted g → Accounted (step e g rng).1.
Proof.
  intros HA. destruct e; cbn [step].
  - rewrite update_eq.
    apply (Accounted_cull_phase (gravity_phase delta (spawn_phase now g rng).1)).
    apply Accounted_gravity_phase. unfold spawn_phase.
    repeat case_decide; try done.
    by apply (Accounted_spawnShape _ _ false (set_lastSpawn now g)).
  - by apply Accounted_spawnShape.
  - unfold ret, shape_pointerdown. cbn [fst].
    destruct (store g !! r) as [s|]; [|done].
    destruct (pointerdown s); [|done]. by apply Accounted_removeShape.
  - by apply (Accounted_resetGame (set_size innerWidth innerHeight g)).
  - done.
  - done.
  - done.
  - done.
Qed.

Lemma Accounted_run (es : list Event) g rng : Accounted g → Accounted (run es g rng).1.
Proof.
  revert g rng. induction es as [|e es IH]; intros g rng HA; [done|].
  rewrite run_cons. by apply IH, Accounted_step.
Qed.

End Resources.

(** X1. Whatever the events, no object is twice in [shapes], every object in
    [shapes] exists, has not been destroyed and has its click handler, and
    every object the game has created that is no longer in [shapes] has been
    destroyed. *)
Theorem shapes_are_the_live_objects (og os : option R) (w h : R)
    (es : list Event) (rng : Rng) :
  NoDup (shapes (run es (Game_new og os w h) rng).1) ∧
  Forall (λ r, ∃ s, store (run es (Game_new og os w h) rng).1 !! r = Some s ∧
                    destroyed s = false ∧ pointerdown s = true)
         (shapes (run es (Game_new og os w h) rng).1) ∧
  map_Forall (λ r s, r ∈ shapes (run es (Game_new og os w h) rng).1 ∨
                     destroyed s = true)
             (store (run es (Game_new og os w h) rng).1).
Proof.
  destruct (Accounted_run es (Game_new og os w h) rng (Accounted_new og os w h))
    as (Hnd & Hlive & Hclick).
  split; [done|]. split.
  - apply Forall_forall. intros r Hr%Hlive. unfold live in Hr.
    destruct (store _ !! r) as [s|] eqn:Hs; [|done].
    exists s. injection Hr as Hr. split; [done|]. split; [done|].
    by apply (Hclick r).
  - intros r s Hs. destruct (destroyed s) eqn:Hd; [by right|left].
    apply Hlive. unfold live. by rewrite Hs, <- Hd.
Qed.

(** ** Falling over several ticks *)

Section Falling.
Implicit Types (g : Game) (rng : Rng) (r : nat) (st : gmap nat Graphics).

Lemma Accounted_update (now delta : R) g rng :
  Accounted g → Accounted (_update now delta g rng).1.
Proof. apply (Accounted_step (Tick now delta)). Qed.

Lemma update_height (now delta : R) g rng :
  height (_update now delta g rng).1 = height g.
Proof.
  rewrite update_eq. change (height (_updateStats ?a)) with (height a).
  destruct (cull_phase_settings (gravity_phase delta (spawn_phase now g rng).1))
    as (_ & -> & _).
  change (height (gravity_phase ?d ?a)) with (height a).
  by destruct (spawn_phase_spec now g rng) as (born & _ & _ & _ & _ & _ & -> & _).
Qed.

(** What one tick does to a shape that is live when it starts. *)
Lemma tick_fate (now delta : R) g rng r (s : Graphics) :
  Accounted g → r ∈ shapes g → store g !! r = Some s →
  (y s + gravity g * delta <= height g + 100 ∧
   r ∈ shapes (_update now delta g rng).1 ∧
   store (_update now delta g rng).1 !! r = Some (fall (gravity g * delta) s)) ∨
  (y s + gravity g * delta > height g + 100 ∧
   (r ∉ shapes (_update now delta g rng).1) ∧
   store (_update now delta g rng).1 !! r
     = Some (destroy (fall (gravity g * delta) s))).
Proof.
  intros HA Hr Hs.
  destruct (spawn_phase_spec now g rng)
    as (born & Hsh & _ & Hk & _ & _ & Hh & Hgr & _).
  assert (Accounted (spawn_phase now g rng).1) as (Hnd1 & _).
  { unfold spawn_phase. repeat case_decide; try done.
    by apply (Accounted_spawnShape _ _ false (set_lastSpawn now g)). }
  rewrite update_eq.
  set (g1 := (spawn_phase now g rng).1) in *.
  set (g2 := gravity_phase delta g1).
  change (shapes (_updateStats ?a)) with (shapes a).
  change (store (_updateStats ?a)) with (store a).
  assert (r ∈ shapes g2) as Hr2.
  { change (r ∈ shapes g1). rewrite Hsh. apply elem_of_app. by left. }
  assert (store g2 !! r = Some (fall (gravity g * delta) s)) as Hs2.
  { change (store g2)
      with (forEach (fall (gravity g1 * delta)) (shapes g1) (store g1)).
    rewrite forEach_lookup_NoDup by done.
    rewrite Hk by (by rewrite Hs). by rewrite Hs, Hgr. }
  assert (height g2 = height g) as Hh2 by done.
  rewrite shapes_cull_phase, store_cull_phase, cull_kept, cull_store, Hh2.
  assert (offscreen (height g + 100) (store g2) r
          = bool_decide (y s + gravity g * delta > height g + 100)) as Hoff.
  { unfold offscreen. by rewrite Hs2. }
  rewrite list_elem_of_filter, Hoff, Hs2.
  destruct (decide (y s + gravity g * delta > height g + 100)) as [Hgt|Hle].
  - right. rewrite bool_decide_true by done.
    split; [done|]. split; [intros [Hno _]; by apply Hno|].
    by rewrite decide_True.
  - left. rewrite bool_decide_false by done.
    split; [lra|]. split; [split; [by intros ?|done]|].
    rewrite decide_False; [done|]. by intros [_ ?].
Qed.

Lemma forEach_lookup_prop (P : Graphics → Prop) (f : Graphics → Graphics)
    (l : list nat) st r (s : Graphics) :
  (∀ s, P s → P (f s)) → st !! r = Some s → P s →
  ∃ s', forEach f l st !! r = Some s' ∧ P s'.
Proof.
  intros Hf. revert st s. induction l as [|r' l IH]; intros st s Hs HP.
  { by exists s. }
  rewrite forEach_cons. destruct (decide (r = r')) as [->|Hne].
  - apply (IH _ (f s)); [|by apply Hf]. by rewrite lookup_alter_eq, Hs.
  - apply (IH _ s); [|done]. by rewrite lookup_alter_ne.
Qed.

(** A destroyed object stays destroyed. *)
Lemma step_keeps_destroyed (e : Event) g rng r (s : Graphics) :
  store g !! r = Some s → destroyed s = true →
  ∃ s', store (step e g rng).1 !! r = Some s' ∧ destroyed s' = true.
Proof.
  intros Hs Hd. destruct e; cbn [step].
  - rewrite update_eq. change (store (_updateStats ?a)) with (store a).
    destruct (spawn_phase_spec now g rng) as (born & _ & _ & Hk & _).
    destruct (forEach_lookup_prop (λ s, destroyed s = true)
                (fall (gravity (spawn_phase now g rng).1 * delta))
                (shapes (spawn_phase now g rng).1)
                (store (spawn_phase now g rng).1) r s)
      as (s2 & Hs2 & Hd2); [done| |done|].
    { rewrite Hk by (by rewrite Hs). done. }
    rewrite store_cull_phase, cull_store.
    change (store (gravity_phase ?d ?a))
      with (forEach (fall (gravity a * d)) (shapes a) (store a)).
    rewrite Hs2. case_decide; eexists; (split; [reflexivity|done]).
  - unfold stage_pointerdown. rewrite spawnShape_keeps_objects by (by rewrite Hs).
    by exists s.
  - unfold ret, shape_pointerdown. cbn [fst].
    destruct (store g !! r0) as [s0|]; [|by exists s].
    destruct (pointerdown s0); [|by exists s].
    rewrite store_removeShape. destruct (decide (r = r0)) as [->|Hne].
    + rewrite lookup_alter_eq, Hs. by eexists.
    + rewrite lookup_alter_ne by done. by exists s.
  - cbn. by apply (forEach_lookup_prop (λ s, destroyed s = true) _ _ _ _ s).
  - by exists s.
  - by exists s.
  - by exists s.
  - by exists s.
Qed.

Lemma run_keeps_destroyed (es : list Event) g rng r (s : Graphics) :
  store g !! r = Some s → destroyed s = true →
  ∃ s', store (run es g rng).1 !! r = Some s' ∧ destroyed s' = true.
Proof.
  revert g rng s. induction es as [|e es IH]; intros g rng s Hs Hd.
  { by exists s. }
  rewrite run_cons.
  destruct (step_keeps_destroyed e g rng r s Hs Hd) as (s1 & Hs1 & Hd1).
  by apply (IH _ _ s1).
Qed.

(** An object stays in the store. *)
Lemma run_keeps_object (es : list Event) g rng r (s : Graphics) :
  store g !! r = Some s → ∃ s', store (run es g rng).1 !! r = Some s'.
Proof.
  revert g rng s. induction es as [|e es IH]; intros g rng s Hs.
  { by exists s. }
  rewrite run_cons.
  destruct (step_keeps_x e g rng r) as [[s1 Hs1] _]; [by rewrite Hs|].
  by apply (IH _ _ s1).
Qed.

(** A shape that has been removed never comes back. *)
Lemma removed_for_good (es : list Event) g rng r :
  Accounted g → is_Some (store g !! r) → r ∉ shapes g →
  r ∉ shapes (run es g rng).1.
Proof.
  intros HA [s Hs] Hr.
  assert (destroyed s = true) as Hd.
  { destruct HA as (_ & Hlive & _). destruct (destroyed s) eqn:Hd; [done|].
    destruct Hr. apply Hlive. unfold live. by rewrite Hs, <- Hd. }
  destruct (run_keeps_destroyed es g rng r s Hs Hd) as (s' & Hs' & Hd').
  destruct (Accounted_run es g rng HA) as (_ & Hlive' & _).
  intros Hin%Hlive'. unfold live in Hin. rewrite Hs' in Hin.
  cbn in Hin. congruence.
Qed.

Lemma ticks_cons (f : R * R) (frames : list (R * R)) g rng :
  run (ticks (f :: frames)) g rng
  = run (ticks frames) (_update f.1 f.2 g rng).1 (_update f.1 f.2 g rng).2.
Proof. unfold ticks. rewrite fmap_cons. apply run_cons. Qed.

Lemma fallen_cons (gr y0 d : R) (l : list R) :
  fallen gr y0 (d :: l) = fallen gr (y0 + gr * d) l.
Proof. reflexivity. Qed.

(** A shape outlives the ticks exactly when no tick has taken it beyond the
    line; its [y] is then what the ticks have added up. *)
Lemma ticks_fate (frames : list (R * R)) g rng r (s : Graphics) :
  Accounted g → r ∈ shapes g → store g !! r = Some s →
  (r ∈ shapes (run (ticks frames) g rng).1
   ↔ ∀ k, (1 ≤ k ≤ length frames)%nat →
          fallen (gravity g) (y s) (take k (snd <$> frames)) <= height g + 100) ∧
  (r ∈ shapes (run (ticks frames) g rng).1 →
   ∃ s', store (run (ticks frames) g rng).1 !! r = Some s' ∧
         x s' = x s ∧
         y s' = fallen (gravity g) (y s) (snd <$> frames)).
Proof.
  revert g rng s. induction frames as [|f frames IH]; intros g rng s HA Hr Hs.
  { split; [|intros _; by exists s]. split; [|done].
    intros _ k Hk. cbn in Hk. lia. }
  rewrite ticks_cons.
  pose proof (Accounted_update f.1 f.2 g rng HA) as HA1.
  destruct (update_settings f.1 f.2 g rng) as [Hgr _].
  pose proof (update_height f.1 f.2 g rng) as Hh.
  rewrite fmap_cons.
  destruct (tick_fate f.1 f.2 g rng r s HA Hr Hs)
    as [(Hle & Hr1 & Hs1)|(Hgt & Hr1 & Hs1)].
  - destruct (IH _ (_update f.1 f.2 g rng).2 _ HA1 Hr1 Hs1) as [Hiff Hex].
    rewrite Hgr, Hh in Hiff. rewrite Hgr in Hex.
    change (y (fall (gravity g * f.2) s)) with (y s + gravity g * f.2)
      in Hiff, Hex.
    change (x (fall (gravity g * f.2) s)) with (x s) in Hex.
    split; [|by rewrite fallen_cons].
    rewrite Hiff. split.
    + intros Hall [|k] Hk; [lia|]. cbn [take]. rewrite fallen_cons.
      destruct k as [|k]; [by rewrite take_0|].
      apply Hall. cbn [length] in Hk. lia.
    + intros Hall k Hk. specialize (Hall (S k)). cbn [take] in Hall.
      rewrite fallen_cons in Hall. apply Hall. cbn [length]. lia.
  - assert (r ∉ shapes (run (ticks frames) (_update f.1 f.2 g rng).1
                            (_update f.1 f.2 g rng).2).1) as Hout.
    { apply removed_for_good; [done|by rewrite Hs1|done]. }
    split; [|done]. split; [done|].
    intros Hall. specialize (Hall 1%nat). cbn [take length] in Hall.
    rewrite take_0, fallen_cons in Hall. cbn [fallen foldl] in Hall.
    assert (1 ≤ 1 ≤ S (length frames))%nat as H1 by lia.
    specialize (Hall H1). lra.
Qed.

End Falling.

(** X2. Over any number of ticks, a shape is still in [shapes] exactly when
    no tick has left its [y], added up tick by tick as the code adds it,
    beyond [height + 100]; it has then kept its [x], and its [y] is that sum,
    which is at most [height + 100].  A shape that a tick has taken beyond
    that line is gone after the ticks, and a shape that has left [shapes]
    never comes back, whatever the events. *)
Theorem shapes_fall_until_culled (frames : list (R * R)) (g : Game) (rng : Rng)
    (r : Ref) (s : Graphics) :
  Accounted g → r ∈ shapes g → store g !! r = Some s →
  (r ∈ shapes (run (ticks frames) g rng).1
   ↔ ∀ k, (1 ≤ k ≤ length frames)%nat →
          fallen (gravity g) (y s) (take k (snd <$> frames)) <= height g + 100) ∧
  (r ∈ shapes (run (ticks frames) g rng).1 →
   ∃ s', store (run (ticks frames) g rng).1 !! r = Some s' ∧
         x s' = x s ∧
         y s' = fallen (gravity g) (y s) (snd <$> frames) ∧
         (frames ≠ [] → y s' <= height g + 100)) ∧
  (∀ k, (1 ≤ k ≤ length frames)%nat →
        fallen (gravity g) (y s) (take k (snd <$> frames)) > height g + 100 →
        r ∉ shapes (run (ticks frames) g rng).1) ∧
  (∀ es, r ∉ shapes (run (ticks frames) g rng).1 →
         r ∉ shapes (run es (run (ticks frames) g rng).1
                            (run (ticks frames) g rng).2).1).
Proof.
  intros HA Hr Hs.
  destruct (ticks_fate frames g rng r s HA Hr Hs) as [Hiff Hex].
  split; [done|]. split; [|split].
  - intros Hin. destruct (Hex Hin) as (s' & Hs' & Hx & Hy).
    exists s'. repeat split; [done..|].
    intros Hne. rewrite Hy.
    rewrite <- (take_ge (snd <$> frames) (length frames))
      by (by rewrite length_fmap).
    apply Hiff; [done|]. destruct frames; [done|]. cbn [length]. lia.
  - intros k Hk Hgt Hin. pose proof (proj1 Hiff Hin k Hk). lra.
  - intros es Hout. apply removed_for_good; [by apply Accounted_run| |done].
    destruct (run_keeps_object (ticks frames) g rng r s Hs) as [s' Hs'].
    by rewrite Hs'.
Qed.

Lemma Accounted_game_one (py : R) : Accounted (game_one py).
Proof.
  split; [apply NoDup_singleton|]. split.
  - intros r. unfold live. cbn. rewrite list_elem_of_singleton.
    destruct (decide (r = 0%nat)) as [->|Hne].
    + by rewrite lookup_singleton_eq.
    + rewrite lookup_singleton_ne by done. by split.
  - intros r s. cbn. by intros [_ <-]%lookup_singleton_Some.
Qed.

(** The shape of [game_one 700] is gone after one tick. *)
Lemma shapes_fall_until_culled_witness :
  0%nat ∉ shapes (run (ticks [(0, 1)]) (game_one 700) rng0).1.
Proof.
  destruct (shapes_fall_until_culled [(0, 1)] (game_one 700) rng0 0%nat
              (shape_at 10 700)) as (_ & _ & Hgone & _).
  - apply Accounted_game_one.
  - cbn. apply list_elem_of_singleton. reflexivity.
  - cbn. apply lookup_singleton_eq.
  - apply (Hgone 1%nat); [cbn; lia|]. cbn. lra.
Defined.

(** ** Areas and statistics *)

Section Statistics.
Implicit Types (g : Game) (rng : Rng) (r : nat) (st : gmap nat Graphics).

Lemma estimateArea_nonneg (type : Z) (size : R) : 0 <= _estimateArea type size.
Proof.
  assert (0 <= size ^ 2) as Hsq by (apply pow2_ge_0).
  assert (0 <= sqrt 3) as Hsqrt by apply sqrt_pos.
  pose proof PI_RGT_0 as Hpi.
  assert (0 < tan (PI / 5)) as Htan by (apply tan_gt_0; lra).
  assert (0 < sin (2 * PI / 5)) as Hsin by (apply sin_gt_0; lra).
  assert (0 <= PI * size * (size / 2)) as Hell.
  { replace (PI * size * (size / 2)) with (PI / 2 * size ^ 2) by (simpl; field).
    apply Rmult_le_pos; lra. }
  unfold _estimateArea.
  repeat match goal with
         | |- context [match ?z with _ => _ end] => destruct z
         end; first [exact Hsq | exact Hell | apply Rmult_le_pos; lra].
Qed.

Lemma createRandomShape_has_area rng : has_area (_createRandomShape rng).1.
Proof.
  unfold _createRandomShape, bind, Math_random, ret. cbn.
  eexists. split; [reflexivity|]. apply estimateArea_nonneg.
Qed.

Lemma createIrregularShape_has_area rng : has_area (_createIrregularShape rng).1.
Proof.
  unfold _createIrregularShape, bind, Math_random, ret.
  cbn [fst snd cursor draws].
  match goal with
  | |- context [irregular_points ?n ?rd ?k ?i ?pts ?g] =>
      destruct (irregular_points_flatten k n rd i pts g) as (vs & _ & Hvs);
      destruct (irregular_points n rd k i pts g) as [points rng'] eqn:E
  end.
  cbn [fst] in Hvs. subst points. cbn [app fst].
  unfold has_area, set_area. cbn [_area].
  rewrite (polygonArea_flatten _ (0, 0)).
  eexists. split; [reflexivity|]. apply Rabs_pos.
Qed.

(** [_spawnShape] stores a shape of one of the two factories, placed: an
    irregular one when that is allowed and the draw is below 0.3. *)
Lemma spawnShape_made (px py : R) (irr : bool) g rng :
  (_spawnShape px py irr g rng).1
  = set_shapes (shapes g ++ [fresh (dom (store g))])
      (set_store
         (<[fresh (dom (store g)) :=
              placed px py
                (if irr
                 then if bool_decide (draws rng (cursor rng) < 0.3)
                      then (_createIrregularShape
                              (mkRng (draws rng) (S (cursor rng)))).1
                      else (_createRandomShape
                              (mkRng (draws rng) (S (cursor rng)))).1
                 else (_createRandomShape rng).1)]> (store g)) g).
Proof.
  unfold _spawnShape, bind. destruct irr.
  - unfold Math_random at 1, ret at 1. cbn [fst snd].
    destruct (bool_decide (draws rng (cursor rng) < 0.3)).
    + by destruct (_createIrregularShape _).
    + by destruct (_createRandomShape _).
  - unfold ret at 1. by destruct (_createRandomShape rng).
Qed.

Lemma spawnShape_has_area (px py : R) (irr : bool) g rng :
  map_Forall (λ _ s, has_area s) (store g) →
  map_Forall (λ _ s, has_area s) (store (_spawnShape px py irr g rng).1).
Proof.
  intros Hall. rewrite spawnShape_made.
  cbn [store set_store set_shapes]. apply map_Forall_insert_2; [|done].
  change (has_area (placed px py ?s)) with (has_area s).
  destruct irr; [destruct (bool_decide _)|].
  - apply createIrregularShape_has_area.
  - apply createRandomShape_has_area.
  - apply createRandomShape_has_area.
Qed.

Lemma forEach_Forall (P : Graphics → Prop) (f : Graphics → Graphics)
    (l : list nat) st :
  (∀ s, P s → P (f s)) →
  map_Forall (λ _ s, P s) st → map_Forall (λ _ s, P s) (forEach f l st).
Proof.
  intros Hf. revert st. induction l as [|r l IH]; intros st Hall; [done|].
  rewrite forEach_cons. apply IH. intros r' s.
  destruct (decide (r' = r)) as [->|Hne].
  - rewrite lookup_alter_eq. destruct (st !! r) as [s0|] eqn:Hs0; [|done].
    intros [= <-]. apply Hf. by apply (Hall r).
  - rewrite lookup_alter_ne by done. apply Hall.
Qed.

Lemma cull_Forall (P : Graphics → Prop) (limit : R) (l : list nat) st :
  (∀ s, P s → P (destroy s)) →
  map_Forall (λ _ s, P s) st → map_Forall (λ _ s, P s) (cull limit l st).2.
Proof.
  intros Hf Hall r s. rewrite cull_store. case_decide; [|apply Hall].
  destruct (st !! r) as [s0|] eqn:Hs0; [|done].
  intros [= <-]. apply Hf. by apply (Hall r).
Qed.

Lemma step_has_area (e : Event) g rng :
  map_Forall (λ _ s, has_area s) (store g) →
  map_Forall (λ _ s, has_area s) (store (step e g rng).1).
Proof.
  intros Hall. destruct e; cbn [step]; try done.
  - rewrite update_eq. change (store (_updateStats ?a)) with (store a).
    rewrite store_cull_phase. apply cull_Forall; [done|].
    apply forEach_Forall; [done|]. unfold spawn_phase.
    repeat case_decide; try done.
    by apply (spawnShape_has_area _ _ false (set_lastSpawn now g)).
  - by apply spawnShape_has_area.
  - unfold ret, shape_pointerdown. cbn [fst].
    destruct (store g !! r) as [s|]; [|done].
    destruct (pointerdown s); [|done]. rewrite store_removeShape.
    by apply (forEach_Forall has_area destroy [r]).
  - cbn. by apply forEach_Forall.
Qed.

Lemma or_zero_area st r :
  map_Forall (λ _ s, has_area s) st → 0 <= JS.or_zero (area_of st r).
Proof.
  intros Hall. unfold area_of.
  destruct (st !! r) as [s|] eqn:Hs; cbn; [|lra].
  destruct (Hall r s Hs) as (a & -> & Ha). cbn. unfold JS.or.
  destruct (Req_dec_T a 0); lra.
Qed.

Lemma totalArea_snoc st (l : list nat) r :
  totalArea st (l ++ [r]) = totalArea st l + JS.or_zero (area_of st r).
Proof. unfold totalArea. by rewrite foldl_app. Qed.

Lemma totalArea_nonneg st (l : list nat) :
  map_Forall (λ _ s, has_area s) st → 0 <= totalArea st l.
Proof.
  intros Hall. induction l as [|r l IH] using rev_ind.
  - unfold totalArea. cbn. lra.
  - rewrite totalArea_snoc. pose proof (or_zero_area st r Hall). lra.
Qed.

Lemma Math_round_nonneg (a : R) : 0 <= a → (0 ≤ JS.Math_round a)%Z.
Proof.
  intros Ha. unfold JS.Math_round.
  destruct (base_Int_part (a + / 2)) as [_ Hgt].
  apply Z.lt_succ_r, lt_IZR. rewrite succ_IZR. lra.
Qed.

Lemma Math_round_near (a : R) :
  IZR (JS.Math_round a) - / 2 <= a < IZR (JS.Math_round a) + / 2.
Proof.
  unfold JS.Math_round. destruct (base_Int_part (a + / 2)). lra.
Qed.

End Statistics.

Section Display.
Implicit Types (g : Game) (rng : Rng) (r : nat).

Lemma page_spawnShape (px py : R) (irr : bool) g rng :
  page (_spawnShape px py irr g rng).1 = page g.
Proof. by destruct (spawnShape_spec px py irr g rng) as (s & -> & _). Qed.

Lemma page_removeShape r g : page (_removeShape r g) = page g.
Proof. unfold _removeShape. by case_decide. Qed.

Lemma step_area_display (e : Event) g rng :
  map_Forall (λ _ s, has_area s) (store g) →
  from_option (λ z, (0 ≤ z)%Z) True (shapesAreaEl (page g)) →
  from_option (λ z, (0 ≤ z)%Z) True (shapesAreaEl (page (step e g rng).1)).
Proof.
  intros Hall Hpage. pose proof (step_has_area e g rng Hall) as Hall'.
  destruct e; cbn [step]; try done.
  - rewrite update_eq. cbn [_updateStats set_page page shapesAreaEl from_option].
    apply Math_round_nonneg, totalArea_nonneg.
    cbn [step] in Hall'. by rewrite update_eq in Hall'.
  - unfold stage_pointerdown. by rewrite page_spawnShape.
  - unfold ret, shape_pointerdown. cbn [fst].
    destruct (store g !! r) as [s|]; [|done].
    destruct (pointerdown s); [|done]. by rewrite page_removeShape.
  - cbn. rewrite Math_round_0. done.
Qed.

Lemma run_area_display (es : list Event) g rng :
  map_Forall (λ _ s, has_area s) (store g) →
  from_option (λ z, (0 ≤ z)%Z) True (shapesAreaEl (page g)) →
  map_Forall (λ _ s, has_area s) (store (run es g rng).1) ∧
  from_option (λ z, (0 ≤ z)%Z) True (shapesAreaEl (page (run es g rng).1)).
Proof.
  revert g rng. induction es as [|e es IH]; intros g rng Hall Hpage; [done|].
  rewrite run_cons. apply IH; [by apply step_has_area|by apply step_area_display].
Qed.

End Display.

(** X3. Whatever the events, every object of the store records an area that
    is a non-negative number, so the total area of the live shapes is not
    negative, and neither is the area the page displays. *)
Theorem areas_are_nonnegative (og os : option R) (w h : R)
    (es : list Event) (rng : Rng) :
  map_Forall (λ _ s, has_area s) (store (run es (Game_new og os w h) rng).1) ∧
  0 <= totalArea (store (run es (Game_new og os w h) rng).1)
                 (shapes (run es (Game_new og os w h) rng).1) ∧
  from_option (λ z, (0 ≤ z)%Z) True
              (shapesAreaEl (page (run es (Game_new og os w h) rng).1)).
Proof.
  destruct (run_area_display es (Game_new og os w h) rng) as [Hall Hpage];
    [done..|].
  split; [done|]. split; [by apply totalArea_nonneg|done].
Qed.

(** X4. A tick and a reset leave the display in step with the state: it shows
    the number of shapes and their total area rounded to the nearest integer,
    the total being the [_area] of the shapes of the array added up from 0 in
    array order, an [_area] that is missing or 0 counting as 0.  The click
    handlers do not touch the display: after a click that removes a shape it
    still shows the count from before, one more than there are shapes, and
    after a click that spawns one it shows one less. *)
Theorem display_follows_ticks_only (now delta px py : R) (irr : bool) (r : Ref)
    (g : Game) (rng : Rng) :
  stats_in_sync (_update now delta g rng).1 ∧
  stats_in_sync (_resetGame g) ∧
  (∀ z, shapesAreaEl (page (_update now delta g rng).1) = Some z →
        IZR z - / 2
        <= totalArea (store (_update now delta g rng).1)
                     (shapes (_update now delta g rng).1)
        < IZR z + / 2) ∧
  page (_removeShape r g) = page g ∧
  page (_spawnShape px py irr g rng).1 = page g ∧
  (stats_in_sync g → r ∈ shapes g →
   shapesCountEl (page (_removeShape r g))
   = Some (S (length (shapes (_removeShape r g))))) ∧
  (stats_in_sync g →
   S <$> shapesCountEl (page (_spawnShape px py irr g rng).1)
   = Some (length (shapes (_spawnShape px py irr g rng).1))) ∧
  shapesAreaEl (page (_update now delta g rng).1)
  = Some (JS.Math_round
            (foldl Rplus 0
               ((λ r', JS.or_zero (area_of (store (_update now delta g rng).1) r'))
                  <$> shapes (_update now delta g rng).1))) ∧
  (∀ st, totalArea st [] = 0) ∧
  (∀ st l r', totalArea st (l ++ [r'])
              = totalArea st l + JS.or_zero (area_of st r')) ∧
  (∀ st r' s' a, st !! r' = Some s' → _area s' = Some a →
                 JS.or_zero (area_of st r') = a ∧ totalArea st [r'] = 0 + a) ∧
  (∀ st r', st !! r' ≫= _area = None → JS.or_zero (area_of st r') = 0).
Proof.
  assert (∀ st l, totalArea st l
                  = foldl Rplus 0 ((λ r', JS.or_zero (area_of st r')) <$> l))
    as Hsum.
  { intros st l. unfold totalArea. generalize 0.
    induction l as [|r' l IH]; intros a0; [done|]. cbn. apply IH. }
  assert (∀ st r' s' a, st !! r' = Some s' → _area s' = Some a →
                        JS.or_zero (area_of st r') = a) as Harea.
  { intros st r' s' a Hs' Ha. unfold area_of. rewrite Hs'. cbn. rewrite Ha.
    cbn. unfold JS.or. by destruct (Req_dec_T a 0). }
  split; [by rewrite update_eq|]. split; [done|]. split.
  { rewrite update_eq. intros z [= <-]. apply Math_round_near. }
  split; [apply page_removeShape|]. split; [apply page_spawnShape|].
  split; [|split; [|split; [|split; [done|split; [apply totalArea_snoc|split]]]]].
  4:{ intros st r' s' a Hs' Ha. split; [by apply (Harea st r' s')|].
      unfold totalArea. cbn. by rewrite (Harea st r' s' a). }
  4:{ intros st r' Hnone. unfold area_of. by rewrite Hnone. }
  3:{ rewrite <- Hsum. by rewrite update_eq. }
  - intros [Hc _] Hr. rewrite page_removeShape, Hc.
    destruct (removeShape_shapes r g) as [[Hno _]|(l1 & l2 & -> & _ & ->)];
      [done|].
    rewrite !length_app. cbn. do 2 f_equal. lia.
  - intros [Hc _]. rewrite page_spawnShape, Hc.
    destruct (spawnShape_spec px py irr g rng) as (s & -> & _). cbn.
    rewrite length_app. cbn. f_equal. lia.
Qed.

(** Clicking the shape of [game_one 0] just after its display was refreshed. *)
Lemma display_follows_ticks_only_witness :
  shapesCountEl (page (_removeShape 0 (_updateStats (game_one 0))))
  = Some (S (length (shapes (_removeShape 0 (_updateStats (game_one 0)))))).
Proof.
  destruct (display_follows_ticks_only 0 1 0 0 false 0%nat
              (_updateStats (game_one 0)) rng0)
    as (_ & _ & _ & _ & _ & Hremove & _).
  apply Hremove.
  - split; reflexivity.
  - cbn. apply list_elem_of_singleton. reflexivity.
Defined.

(** ** The star *)

Lemma drawStar_lineTo_points (cx cy radius : R) (points : nat) :
  (2 ≤ points)%nat →
  lineTo_points (drawStar cx cy points radius)
  = (λ i : nat,
       (cx + (if Nat.even i then radius else radius / 2)
             * cos (INR i * (PI / INR points)),
        cy + (if Nat.even i then radius else radius / 2)
             * sin (INR i * (PI / INR points))))
      <$> seq 0 (2 * points).
Proof.
  intros Hge. unfold drawStar. rewrite decide_False by lia.
  unfold lineTo_points. cbn [omap list_omap lineTo_of].
  apply omap_fmap_Some. intros i. cbv beta zeta. cbn [lineTo_of].
  destruct (Nat.even i) eqn:He.
  - apply Nat.even_spec in He as [k ->].
    rewrite decide_True; [done|]. rewrite Nat.mul_comm. apply Nat.Div0.mod_mul.
  - rewrite decide_False; [done|]. intros Hm.
    apply Nat.Div0.mod_divides in Hm as [k ->].
    by rewrite Nat.even_mul in He.
Qed.

(** X5. [drawStar] with fewer than 2 points draws nothing.  Otherwise it
    moves to [(x + radius, y)] and draws exactly [2 * points] lines and
    nothing else; the first goes to that same point, and the [i]-th goes to
    [(x + r * cos (i * step), y + r * sin (i * step))] with
    [step = PI / points], where [r] is [radius] for even [i] and
    [radius / 2] for odd [i]. *)
Theorem drawStar_geometry (cx cy radius : R) (points : nat) :
  ((points < 2)%nat → drawStar cx cy points radius = []) ∧
  ((2 ≤ points)%nat →
   head (drawStar cx cy points radius) = Some (MoveTo (cx + radius) cy) ∧
   length (lineTo_points (drawStar cx cy points radius)) = (2 * points)%nat ∧
   lineTo_points (drawStar cx cy points radius) !! 0%nat
     = Some (cx + radius, cy) ∧
   ∀ i p, lineTo_points (drawStar cx cy points radius) !! i = Some p →
     p = (cx + (if Nat.even i then radius else radius / 2)
               * cos (INR i * (PI / INR points)),
          cy + (if Nat.even i then radius else radius / 2)
               * sin (INR i * (PI / INR points)))) ∧
  length (drawStar cx cy points radius)
  = (if decide (points < 2)%nat then 0 else S (2 * points))%nat.
Proof.
  split.
  { intros Hlt. unfold drawStar. by rewrite decide_True. }
  split; [|unfold drawStar; case_decide; [done|];
           cbn [length]; by rewrite length_fmap, length_seq].
  intros Hge. rewrite drawStar_lineTo_points by done.
  split; [unfold drawStar; by rewrite decide_False by lia|].
  split; [by rewrite length_fmap, length_seq|]. split.
  - rewrite list_lookup_fmap, lookup_seq_lt by lia. cbn.
    rewrite Rmult_0_l, cos_0, sin_0. do 2 f_equal; ring.
  - intros i p. rewrite list_lookup_fmap.
    destruct (seq 0 (2 * points) !! i) as [j|] eqn:Hj; [|done].
    apply lookup_seq in Hj as [-> _]. cbn. by intros [= <-].
Qed.

(** The star of the game: 5 points, size 30. *)
Lemma drawStar_geometry_witness :
  length (lineTo_points (drawStar 0 0 5 30)) = 10%nat ∧
  lineTo_points (drawStar 0 0 5 30) !! 0%nat = Some (0 + 30, 0).
Proof.
  destruct (drawStar_geometry 0 0 30 5) as (_ & Hstar & _).
  destruct Hstar as (_ & Hlen & Hfirst & _); [lia|].
  exact (conj Hlen Hfirst).
Defined.

(** ** Irregular shapes *)





(** ** More on the shoelace area *)

Section ShoelaceEdges.





End ShoelaceEdges.



(** ** What a spawn makes *)

Section SpawnedShapes.
Implicit Types (g : Game) (rng : Rng) (r : nat).

(** A shape of [_createRandomShape] is of one of the seven kinds. *)
Lemma createRandomShape_kind rng :
  uniform rng →
  ∃ k size c,
    MIN_SIZE <= size < MAX_SIZE ∧
    (_createRandomShape rng).1
    = mkGraphics ([BeginFill c] ++ spec_geometry k size ++ [EndFill])
                 0 0 (Some (spec_area k size)) false false.
Proof.
  intros Hu. unfold _createRandomShape, bind, Math_random, ret; simpl.
  set (u := draws rng (S (cursor rng))).
  set (t := draws rng (S (S (cursor rng)))).
  destruct (type_has_kind (JS.Math_floor (t * 7))) as [k Hk].
  { pose proof (floor_range t 7 (Hu _)). lia. }
  destruct (estimateArea_spec _ (MIN_SIZE + u * (MAX_SIZE - MIN_SIZE)) _ Hk)
    as [Hd Ha].
  exists k, (MIN_SIZE + u * (MAX_SIZE - MIN_SIZE)),
    (draws rng (cursor rng) * 16777215).
  split; [apply size_range, Hu|].
  unfold set_area, draw; simpl. by rewrite Hd, Ha.
Qed.

Lemma uniform_next rng :
  uniform rng → uniform (mkRng (draws rng) (S (cursor rng))).
Proof. done. Qed.

End SpawnedShapes.

(** X9. A tick in which a spawn is due, at a positive rate, pushes one new
    shape; it is of one of the seven regular kinds, never an irregular
    polygon, its [x] is in [[0, width)], and having entered at [y = -50] it
    has already fallen by [gravity * delta] when the motion step is over.  It
    outlives the tick exactly when that [y] is not below [height + 100]. *)
Theorem timer_spawn (now delta : R) (g : Game) (rng : Rng) :
  Accounted g → uniform rng → 0 < width g →
  now - _lastSpawn g >= spawn_interval g → spawnPerSecond g > 0 →
  (fresh (dom (store g)) ∉ shapes g) ∧
  shapes (gravity_phase delta (spawn_phase now g rng).1)
    = shapes g ++ [fresh (dom (store g))] ∧
  (∃ k size c px,
     MIN_SIZE <= size < MAX_SIZE ∧ 0 <= px < width g ∧
     store (gravity_phase delta (spawn_phase now g rng).1)
       !! fresh (dom (store g))
     = Some (mkGraphics ([BeginFill c] ++ spec_geometry k size ++ [EndFill])
                        px (-50 + gravity g * delta)
                        (Some (spec_area k size)) true false)) ∧
  (fresh (dom (store g)) ∈ shapes (_update now delta g rng).1
   ↔ -50 + gravity g * delta <= height g + 100).
Proof.
  intros HA Hu Hw Hdue Hpos. change (spawn_due now g) in Hdue.
  set (r := fresh (dom (store g))).
  assert (r ∉ shapes g) as Hnew.
  { destruct HA as (_ & Hlive & _). intros Hin%Hlive. unfold live in Hin.
    unfold r in Hin. by rewrite fresh_not_in_store in Hin. }
  destruct (createRandomShape_kind (mkRng (draws rng) (S (cursor rng))))
    as (k & size & c & Hsize & Hmade); [by apply uniform_next|].
  set (px := draws rng (cursor rng) * width g).
  assert (0 <= px < width g) as Hpx.
  { unfold px. destruct (Hu (cursor rng)). nra. }
  assert ((spawn_phase now g rng).1
          = set_shapes (shapes g ++ [r])
              (set_store
                 (<[r := mkGraphics
                           ([BeginFill c] ++ spec_geometry k size ++ [EndFill])
                           px (-50) (Some (spec_area k size)) true false]>
                    (store g))
                 (set_lastSpawn now g))) as Hg1.
  { rewrite spawn_phase_spawns by done. rewrite spawnShape_made.
    cbn [store set_lastSpawn shapes width]. fold r px. by rewrite Hmade. }
  assert (NoDup (shapes g ++ [r])) as Hnd.
  { apply NoDup_app. split; [apply HA|]. split; [|apply NoDup_singleton].
    by intros r' Hr' ->%list_elem_of_singleton. }
  assert (store (gravity_phase delta (spawn_phase now g rng).1) !! r
          = Some (mkGraphics ([BeginFill c] ++ spec_geometry k size ++ [EndFill])
                             px (-50 + gravity g * delta)
                             (Some (spec_area k size)) true false)) as Hs2.
  { rewrite Hg1.
    change (store (gravity_phase delta ?a))
      with (forEach (fall (gravity a * delta)) (shapes a) (store a)).
    cbn [shapes store gravity set_shapes set_store set_lastSpawn].
    rewrite forEach_lookup_NoDup; [|done|].
    - by rewrite lookup_insert_eq.
    - apply elem_of_app. right. by apply list_elem_of_singleton. }
  split; [done|]. split; [by rewrite Hg1|]. split.
  { by exists k, size, c, px. }
  rewrite update_eq.
  change (shapes (_updateStats ?a)) with (shapes a).
  rewrite shapes_cull_phase, cull_kept, list_elem_of_filter.
  unfold offscreen. rewrite Hs2. cbn [y].
  change (height (gravity_phase delta ?a)) with (height a).
  rewrite Hg1. cbn [height shapes set_shapes set_store set_lastSpawn].
  rewrite bool_decide_spec. split.
  - intros [Hle _]. lra.
  - intros Hle. split; [lra|]. apply elem_of_app. right.
    by apply list_elem_of_singleton.
Qed.

(** A tick at time 1000 of [game_one 0], with draws that are all 0. *)
Lemma timer_spawn_witness :
  fresh (dom (store (game_one 0))) ∈ shapes (_update 1000 1 (game_one 0) rng0).1
  ↔ -50 + gravity (game_one 0) * 1 <= height (game_one 0) + 100.
Proof.
  apply timer_spawn.
  - apply Accounted_game_one.
  - intros n. destruct n as [|[|n]]; cbn; lra.
  - cbn. lra.
  - unfold spawn_interval, JS.or. cbn. destruct (Req_dec_T 1 0); lra.
  - cbn. lra.
Defined.

Section RateZero.
Implicit Types (g : Game) (rng : Rng) (r : nat).

Lemma update_rng (now delta : R) g rng :
  (_update now delta g rng).2 = (spawn_phase now g rng).2.
Proof. unfold _update, bind, ret. by destruct (spawn_phase now g rng). Qed.

Lemma dom_forEach (f : Graphics → Graphics) (l : list nat)
    (st : gmap nat Graphics) :
  dom (forEach f l st) = dom st.
Proof. apply set_eq. intros r. rewrite !elem_of_dom. apply forEach_is_Some. Qed.

Lemma dom_cull (limit : R) (l : list nat) (st : gmap nat Graphics) :
  dom (cull limit l st).2 = dom st.
Proof.
  apply set_eq. intros r. rewrite !elem_of_dom.
  rewrite <- (fmap_is_Some (λ _, ()) ((cull limit l st).2 !! r)).
  rewrite (cull_preserved (λ _, ())) by done. apply fmap_is_Some.
Qed.

(** A tick at a rate that is not positive. *)
Lemma update_without_spawn (now delta : R) g rng :
  spawnPerSecond g <= 0 →
  sublist (shapes (_update now delta g rng).1) (shapes g) ∧
  dom (store (_update now delta g rng).1) = dom (store g) ∧
  (_update now delta g rng).2 = rng.
Proof.
  intros Hrate.
  assert (shapes (spawn_phase now g rng).1 = shapes g ∧
          store (spawn_phase now g rng).1 = store g ∧
          (spawn_phase now g rng).2 = rng) as (Hsh & Hst & Hrng).
  { destruct (decide (spawn_due now g)).
    - rewrite spawn_phase_suppressed; [done..|lra].
    - by rewrite spawn_phase_not_due. }
  rewrite update_rng, update_eq.
  change (shapes (_updateStats ?a)) with (shapes a).
  change (store (_updateStats ?a)) with (store a).
  rewrite shapes_cull_phase, store_cull_phase, cull_kept, dom_cull.
  change (store (gravity_phase delta ?a))
    with (forEach (fall (gravity a * delta)) (shapes a) (store a)).
  change (shapes (gravity_phase delta ?a)) with (shapes a).
  rewrite dom_forEach, Hsh, Hst.
  split; [apply sublist_filter|done].
Qed.

End RateZero.

(** X10. At a spawn rate of 0 the ticks add nothing: however many of them
    run, the shapes left are shapes that were there, in the order they had,
    no object is created and no random number is drawn. *)
Theorem no_spawn_at_rate_zero (frames : list (R * R)) (g : Game) (rng : Rng) :
  spawnPerSecond g <= 0 →
  sublist (shapes (run (ticks frames) g rng).1) (shapes g) ∧
  (length (shapes (run (ticks frames) g rng).1) ≤ length (shapes g))%nat ∧
  dom (store (run (ticks frames) g rng).1) = dom (store g) ∧
  (run (ticks frames) g rng).2 = rng.
Proof.
  revert g rng. induction frames as [|f frames IH]; intros g rng Hrate.
  { done. }
  rewrite ticks_cons.
  destruct (update_without_spawn f.1 f.2 g rng Hrate) as (Hsub & Hdom & Hrng).
  destruct (update_settings f.1 f.2 g rng) as [_ Hsps].
  destruct (IH (_update f.1 f.2 g rng).1 (_update f.1 f.2 g rng).2)
    as (Hsub' & _ & Hdom' & Hrng'); [by rewrite Hsps|].
  assert (sublist (shapes (run (ticks frames) (_update f.1 f.2 g rng).1
                             (_update f.1 f.2 g rng).2).1) (shapes g)) as Hs
    by (by etrans).
  split; [done|]. split; [by apply sublist_length|].
  split; [by rewrite Hdom'|by rewrite Hrng'].
Qed.

(** Two ticks of [game_one 0] with its rate brought down to 0. *)
Lemma no_spawn_at_rate_zero_witness :
  (length (shapes (run (ticks [(1000%R, 1%R); (2000%R, 1%R)])
                       (spawn_dec (game_one 0%R)) rng0).1)
   ≤ length (shapes (spawn_dec (game_one 0%R))))%nat.
Proof.
  destruct (no_spawn_at_rate_zero [(1000, 1); (2000, 1)]
              (spawn_dec (game_one 0)) rng0) as (_ & Hlen & _).
  - cbn. unfold SPAWN_STEP, JS.Math_max. rewrite Rmax_left; lra.
  - exact Hlen.
Defined.

(** ** Clicks *)

(** X11. A [pointerdown] on the stage itself pushes exactly one new shape, at
    the place of the click, with its handler, behind the shapes there are,
    and changes no other object; the shape is an irregular polygon when the
    first draw is below 0.3 and of one of the seven regular kinds otherwise.
    A [pointerdown] on a shape runs the handler of that shape, which removes
    it, and the handler of the stage, which finds that the target is not the
    stage and does nothing: such a click removes one shape, spawns none and
    draws no random number. *)
Theorem stage_click_spawns (px py : R) (g : Game) (rng : Rng) :
  stage_pointerdown false px py g rng = (g, rng) ∧
  shapes (stage_pointerdown true px py g rng).1
    = shapes g ++ [fresh (dom (store g))] ∧
  length (shapes (stage_pointerdown true px py g rng).1) = S (length (shapes g)) ∧
  store g !! fresh (dom (store g)) = None ∧
  (∃ s, store (stage_pointerdown true px py g rng).1
        = <[fresh (dom (store g)) := s]> (store g) ∧
        x s = px ∧ y s = py ∧ pointerdown s = true ∧ destroyed s = false ∧
        (draws rng (cursor rng) < 0.3 →
         ∃ c pts, cmds s = [BeginFill c; DrawPolygon pts; EndFill]) ∧
        (uniform rng → ¬ draws rng (cursor rng) < 0.3 →
         ∃ k size c, MIN_SIZE <= size < MAX_SIZE ∧
                     cmds s = [BeginFill c] ++ spec_geometry k size ++ [EndFill] ∧
                     _area s = Some (spec_area k size))) ∧
  (∀ r s, store g !! r = Some s → pointerdown s = true →
     shape_pointerdown r g = _removeShape r g ∧
     stage_pointerdown false px py (shape_pointerdown r g) rng
     = (_removeShape r g, rng) ∧
     shape_pointerdown r (stage_pointerdown false px py g rng).1
     = _removeShape r g ∧
     (r ∈ shapes g →
      (length (shapes (shape_pointerdown r g)) + 1 = length (shapes g))%nat)).
Proof.
  assert (∀ r s, store g !! r = Some s → pointerdown s = true →
                 shape_pointerdown r g = _removeShape r g) as Hclick.
  { intros r s Hs Hp. unfold shape_pointerdown. by rewrite Hs, Hp. }
  assert (∀ r s, store g !! r = Some s → pointerdown s = true →
     shape_pointerdown r g = _removeShape r g ∧
     stage_pointerdown false px py (shape_pointerdown r g) rng
     = (_removeShape r g, rng) ∧
     shape_pointerdown r (stage_pointerdown false px py g rng).1
     = _removeShape r g ∧
     (r ∈ shapes g →
      (length (shapes (shape_pointerdown r g)) + 1 = length (shapes g))%nat))
    as Hshape.
  { intros r s Hs Hp. rewrite (Hclick r s Hs Hp).
    split; [done|]. split; [done|]. split; [by apply (Hclick r s)|].
    intros Hr.
    destruct (removeShape_shapes r g) as [[Hno _]|(l1 & l2 & -> & _ & ->)];
      [done|].
    rewrite !length_app. cbn. lia. }
  split; [done|].
  unfold stage_pointerdown at 1 2 3. rewrite spawnShape_made.
  cbn [shapes store set_shapes set_store].
  split; [done|]. split; [rewrite length_app; cbn; lia|].
  split; [apply fresh_not_in_store|]. split; [|exact Hshape].
  eexists. split; [reflexivity|].
  split; [done|]. split; [done|]. split; [done|]. split.
  { destruct (bool_decide _).
    - apply createIrregularShape_just_made.
    - apply createRandomShape_just_made. }
  split.
  - intros Hlt. rewrite bool_decide_true by done.
    change (cmds (placed px py ?s)) with (cmds s).
    unfold _createIrregularShape, bind, Math_random, ret.
    destruct (irregular_points _ _ _ _ _ _) as [pts rng']. cbn.
    by eexists _, _.
  - intros Hu Hge. rewrite bool_decide_false by done.
    change (cmds (placed px py ?s)) with (cmds s).
    change (_area (placed px py ?s)) with (_area s).
    destruct (createRandomShape_kind (mkRng (draws rng) (S (cursor rng))))
      as (k & size & c & Hsize & ->); [by apply uniform_next|].
    by exists k, size, c.
Qed.

(** A click at [(100, 200)] with draws that are all 0: an irregular shape. *)
Lemma stage_click_spawns_witness :
  ∃ s, store (stage_pointerdown true 100 200 (game_one 0) rng0).1
       = <[fresh (dom (store (game_one 0))) := s]> (store (game_one 0)) ∧
       x s = 100 ∧ y s = 200 ∧
       ∃ c pts, cmds s = [BeginFill c; DrawPolygon pts; EndFill].
Proof.
  destruct (stage_click_spawns 100 200 (game_one 0) rng0)
    as (_ & _ & _ & _ & (s & Hst & Hx & Hy & _ & _ & Hirr & _) & _).
  exists s. split; [exact Hst|]. split; [exact Hx|]. split; [exact Hy|].
  apply Hirr. cbn. lra.
Defined.

(** ** The controls, composed *)

(** X12. An increase followed by a decrease restores a setting that was not
    negative; a decrease followed by an increase restores it only from 1
    upwards, and gives 1 from below. *)
Theorem controls_round_trip (g : Game) :
  (0 <= gravity g → gravity (grav_dec (grav_inc g)) = gravity g) ∧
  (0 <= spawnPerSecond g →
   spawnPerSecond (spawn_dec (spawn_inc g)) = spawnPerSecond g) ∧
  gravity (grav_inc (grav_dec g)) = Rmax 1 (gravity g) ∧
  spawnPerSecond (spawn_inc (spawn_dec g)) = Rmax 1 (spawnPerSecond g).
Proof.
  cbn. unfold JS.Math_max, GRAVITY_STEP, SPAWN_STEP, Rmax.
  repeat split; intros; repeat destruct (Rle_dec _ _); lra.
Qed.

(** From the default gravity 1. *)
Lemma controls_round_trip_witness :
  gravity (grav_dec (grav_inc (game_one 0))) = gravity (game_one 0).
Proof.
  destruct (controls_round_trip (game_one 0)) as [Hg _].
  apply Hg. cbn. lra.
Defined.
